(** * Retro Todo Terminal: the task store of [todo_frontend/src/App.js]

    A shallow embedding of the task-list logic of the React component
    [App]: its helpers [generateId], [parseStoredTodos], [getCounts], its
    derived values [visibleTodos] and [counts], its handlers [addTodo],
    [startEdit], [cancelEdit], [commitEdit], [deleteTodo],
    [toggleCompleted], [clearCompleted] and its persistence effect,
    followed by the properties of the store.  Rendering, styling and focus
    management are not part of the embedding.

    Conventions.
    - A JavaScript string is the list of its UTF-16 code units.
    - A JavaScript number is an exact rational.  [Date.now()] returns an
      integral time value and [JSON.parse] reads a finite decimal literal;
      the model agrees with the code on the numbers a double holds
      exactly and prints in plain digits, the integers of magnitude at
      most 2^53 (every time value of the clock) among them.  IEEE
      rounding of other literals, the exponent form of the integers from
      10^21 upward, overflow to [Infinity] and the sign of zero are
      outside the model.
    - [Date.now()] and [Math.random()] are oracles of the environment:
      the n-th call returns the n-th reading, and the number of calls
      made so far is threaded through the effectful functions, together
      with the timers they set.
    - React state is a record; a handler maps the state it closes over to
      the state of the next render.
    - [JSON.stringify] and [JSON.parse] are modelled on code units, the
      parser covering the whole JSON grammar. *)

From Stdlib Require Import Ascii String.
From Stdlib Require Import List Bool Arith ZArith NArith QArith Lia Lqa.
From Stdlib Require Decimal DecimalFacts DecimalPos DecimalN DecimalZ.
From Stdlib Require Import Sorting.Sorted Permutation.
Import ListNotations.

Close Scope Q_scope.
Local Open Scope nat_scope.
Local Open Scope list_scope.

(* ================================================================== *)
(** ** JavaScript strings *)

Definition code_unit := N.
Definition jsstring := list code_unit.

(** An ASCII literal of the source as a JavaScript string. *)
Definition lit (s : String.string) : jsstring :=
  map N_of_ascii (String.list_ascii_of_string s).

Arguments lit s%_string.

(** [a === b] on strings. *)
Fixpoint str_eqb (a b : jsstring) : bool :=
  match a, b with
  | [], [] => true
  | x :: a', y :: b' => N.eqb x y && str_eqb a' b'
  | _, _ => false
  end.

(** Truthiness of a value that is [null]/[undefined] or a string: only a
    non-empty string is truthy. *)
Definition truthy (v : option jsstring) : bool :=
  match v with
  | Some (_ :: _) => true
  | _ => false
  end.

(** WhiteSpace and LineTerminator code points of ECMAScript, the ones
    [String.prototype.trim] strips (all of them lie in the BMP). *)
Definition is_whitespace (c : code_unit) : bool :=
  ((9 <=? c) && (c <=? 13) || (c =? 32) || (c =? 160) || (c =? 5760)
   || (8192 <=? c) && (c <=? 8202) || (c =? 8232) || (c =? 8233)
   || (c =? 8239) || (c =? 8287) || (c =? 12288) || (c =? 65279))%N.

Fixpoint trimStart (s : jsstring) : jsstring :=
  match s with
  | c :: r => if is_whitespace c then trimStart r else s
  | [] => []
  end.

Definition trimEnd (s : jsstring) : jsstring := rev (trimStart (rev s)).

(** [s.trim()] *)
Definition trim (s : jsstring) : jsstring := trimEnd (trimStart s).

(** [s.slice(from, to)] for [0 <= from <= to]. *)
Definition slice (from to : nat) (s : jsstring) : jsstring :=
  firstn (to - from) (skipn from s).

(** Digits of [Number.prototype.toString(36)]: [0-9] then [a-z]. *)
Definition digit36 (d : N) : code_unit :=
  (if d <? 10 then 48 + d else 87 + d)%N.

Fixpoint to_radix36 (fuel : nat) (n : N) (acc : jsstring) : jsstring :=
  match fuel with
  | O => acc
  | S f =>
      let acc' := digit36 (n mod 36) :: acc in
      if (n / 36 =? 0)%N then acc' else to_radix36 f (n / 36)%N acc'
  end.

(** [z.toString(36)] for an integral number [z]; a positive of [k] bits
    has at most [k] digits in base 36 ([toString36_fuel]). *)
Definition toString36 (z : Z) : jsstring :=
  match z with
  | Z0 => lit "0"
  | Zpos p => to_radix36 (Pos.size_nat p) (Npos p) []
  | Zneg p => lit "-" ++ to_radix36 (Pos.size_nat p) (Npos p) []
  end.

(* ================================================================== *)
(** ** JavaScript numbers and their decimal text *)

Definition number := Q.

Definition digit_char (d : N) : code_unit := (48 + d)%N.

Fixpoint uint_chars (d : Decimal.uint) : jsstring :=
  match d with
  | Decimal.Nil => []
  | Decimal.D0 r => 48%N :: uint_chars r
  | Decimal.D1 r => 49%N :: uint_chars r
  | Decimal.D2 r => 50%N :: uint_chars r
  | Decimal.D3 r => 51%N :: uint_chars r
  | Decimal.D4 r => 52%N :: uint_chars r
  | Decimal.D5 r => 53%N :: uint_chars r
  | Decimal.D6 r => 54%N :: uint_chars r
  | Decimal.D7 r => 55%N :: uint_chars r
  | Decimal.D8 r => 56%N :: uint_chars r
  | Decimal.D9 r => 57%N :: uint_chars r
  end.

(** Digits after the decimal point of [r / d], for [0 <= r < d], by long
    division, at most [fuel] of them. *)
Fixpoint frac_digits (fuel : nat) (r d : Z) : jsstring :=
  match fuel with
  | O => []
  | S f =>
      if (r =? 0)%Z then []
      else digit_char (Z.to_N (r * 10 / d)) :: frac_digits f ((r * 10) mod d)%Z d
  end.

(** [Number::toString] in radix 10, in the plain (non-exponent) form an
    integral number below 10^21 prints in: an optional minus sign and the
    integer digits.  The handlers only ever write integral numbers; for a
    non-integral value the model adds a point and the fraction digits,
    as many as the denominator has bits.

    Range of the model: this is the text [JSON.stringify] writes for the
    integers of magnitude below 10^21, the time values of [Date.now()] (at
    most 8.64e15 in magnitude) among them.  From 10^21 upward the code
    writes the exponent form, which this definition does not. *)
Definition number_to_string (q : number) : jsstring :=
  let n := Qnum q in
  let d := Zpos (Qden q) in
  let a := Z.abs n in
  (if (n <? 0)%Z then lit "-" else [])
    ++ uint_chars (N.to_uint (Z.to_N (a / d)))
    ++ (if (a mod d =? 0)%Z then []
        else lit "." ++ frac_digits (Pos.size_nat (Qden q)) (a mod d) d).

(* ================================================================== *)
(** ** The environment: clock, random source, timers *)

(** The readings the host returns: [Date_now n] is what the n-th call of
    [Date.now()] yields, [Math_random_toString36 n] the text of
    [Math.random().toString(36)] at the n-th call of [Math.random()]. *)
Record Env := {
  Date_now : nat -> Z;
  Math_random_toString36 : nat -> jsstring
}.

(** What a run has consumed and scheduled so far. *)
Record World := {
  clock_reads : nat;
  random_reads : nat;
  timeouts : list N   (* delays of the pending [setTimeout] callbacks *)
}.

Definition M (A : Type) : Type := World -> A * World.

Definition ret {A} (a : A) : M A := fun w => (a, w).

Definition bind {A B} (c : M A) (k : A -> M B) : M B :=
  fun w => let (a, w') := c w in k a w'.

Notation "x <- c ;; k" := (bind c (fun x => k))
  (at level 61, c at next level, right associativity).
Notation "c ;;; k" := (bind c (fun _ => k))
  (at level 61, right associativity).

Definition now (env : Env) : M Z :=
  fun w => (Date_now env (clock_reads w),
            {| clock_reads := S (clock_reads w);
               random_reads := random_reads w;
               timeouts := timeouts w |}).

Definition random36 (env : Env) : M jsstring :=
  fun w => (Math_random_toString36 env (random_reads w),
            {| clock_reads := clock_reads w;
               random_reads := S (random_reads w);
               timeouts := timeouts w |}).

(** [window.setTimeout(cb, delay)] *)
Definition setTimeout (delay : N) : M unit :=
  fun w => (tt,
            {| clock_reads := clock_reads w;
               random_reads := random_reads w;
               timeouts := timeouts w ++ [delay] |}).

(* ================================================================== *)
(** ** The data model *)

Module Todo.
Record t := mk {
  id : jsstring;
  title : jsstring;
  completed : bool;
  createdAt : number
}.
End Todo.

Inductive Filter := FilterAll | FilterActive | FilterCompleted.

(** The React state of [App]. *)
Record AppState := {
  todos : list Todo.t;
  newTitle : jsstring;
  editingId : option jsstring;
  editingTitle : jsstring;
  filter : Filter;
  error : jsstring
}.

Module Counts.
Record t := mk { total : nat; completed : nat; active : nat }.
End Counts.

Definition STORAGE_KEY : jsstring := lit "retro_todos_v1".

(** [generateId()]: the clock in base 36, an underscore, and up to eight
    characters of the random number's base-36 text after its ["0."]. *)
Definition generateId (env : Env) : M jsstring :=
  t <- now env ;;
  r <- random36 env ;;
  ret (toString36 t ++ lit "_" ++ slice 2 10 r).

Definition getCounts (ts : list Todo.t) : Counts.t :=
  let total := length ts in
  let completed := length (List.filter Todo.completed ts) in
  Counts.mk total completed (total - completed).

(** [validateTitle]: [None] is the source's [null]. *)
Definition validateTitle (title : jsstring) : option jsstring :=
  let trimmed := trim title in
  if negb (truthy (Some trimmed)) then Some (lit "Please type a task name.")
  else if 120 <? length trimmed
       then Some (lit "Task name is too long (max 120 chars).")
       else None.

Definition setError (msg : jsstring) (st : AppState) : AppState :=
  {| todos := todos st; newTitle := newTitle st; editingId := editingId st;
     editingTitle := editingTitle st; filter := filter st; error := msg |}.

Definition setTodos (f : list Todo.t -> list Todo.t) (st : AppState) : AppState :=
  {| todos := f (todos st); newTitle := newTitle st; editingId := editingId st;
     editingTitle := editingTitle st; filter := filter st; error := error st |}.

Definition setNewTitle (s : jsstring) (st : AppState) : AppState :=
  {| todos := todos st; newTitle := s; editingId := editingId st;
     editingTitle := editingTitle st; filter := filter st; error := error st |}.

Definition setEditingId (i : option jsstring) (st : AppState) : AppState :=
  {| todos := todos st; newTitle := newTitle st; editingId := i;
     editingTitle := editingTitle st; filter := filter st; error := error st |}.

Definition setEditingTitle (s : jsstring) (st : AppState) : AppState :=
  {| todos := todos st; newTitle := newTitle st; editingId := editingId st;
     editingTitle := s; filter := filter st; error := error st |}.

Definition setFilter (f : Filter) (st : AppState) : AppState :=
  {| todos := todos st; newTitle := newTitle st; editingId := editingId st;
     editingTitle := editingTitle st; filter := f; error := error st |}.

(** [clearErrorSoon]: the callback [() => setError("")] is queued for
    2500 ms later; [errorTimeoutFires] is that callback. *)
Definition clearErrorSoon : M unit := setTimeout 2500%N.

Definition errorTimeoutFires (st : AppState) : AppState := setError [] st.

(** [editingId === i], where [editingId] is [null] or a string and [i] a
    string. *)
Definition is_editing (editing : option jsstring) (i : jsstring) : bool :=
  match editing with
  | Some e => str_eqb i e
  | None => false
  end.

(** [t.id === editingId] *)
Definition is_target (editing : option jsstring) (t : Todo.t) : bool :=
  is_editing editing (Todo.id t).

(** [addTodo]: [validateTitle] returns [null] or a non-empty message, so
    the [None] case under a truthy result is never taken.  The focus call
    that ends the source function is not modelled. *)
Definition addTodo (env : Env) (st : AppState) : M AppState :=
  let validationError := validateTitle (newTitle st) in
  if truthy validationError then
    match validationError with
    | Some msg => clearErrorSoon ;;; ret (setError msg st)
    | None => ret st
    end
  else
    let title := trim (newTitle st) in
    i <- generateId env ;;
    c <- now env ;;
    let next := Todo.mk i title false (inject_Z c) in
    ret (setError [] (setNewTitle [] (setTodos (fun prev => prev ++ [next]) st))).

Definition startEdit (todo : Todo.t) (st : AppState) : AppState :=
  setError [] (setEditingTitle (Todo.title todo) (setEditingId (Some (Todo.id todo)) st)).

Definition cancelEdit (st : AppState) : AppState :=
  setError [] (setEditingTitle [] (setEditingId None st)).

Definition retitle (nextTitle : jsstring) (t : Todo.t) : Todo.t :=
  Todo.mk (Todo.id t) nextTitle (Todo.completed t) (Todo.createdAt t).

Definition commitEdit (st : AppState) : M AppState :=
  let validationError := validateTitle (editingTitle st) in
  if truthy validationError then
    match validationError with
    | Some msg => clearErrorSoon ;;; ret (setError msg st)
    | None => ret st
    end
  else
    let nextTitle := trim (editingTitle st) in
    ret (setError [] (setEditingTitle [] (setEditingId None
          (setTodos
             (map (fun t => if is_target (editingId st) t
                            then retitle nextTitle t else t))
             st)))).

Definition deleteTodo (i : jsstring) (st : AppState) : AppState :=
  let st' := setTodos (List.filter (fun t => negb (str_eqb (Todo.id t) i))) st in
  if is_editing (editingId st) i then cancelEdit st' else st'.

Definition flip (t : Todo.t) : Todo.t :=
  Todo.mk (Todo.id t) (Todo.title t) (negb (Todo.completed t)) (Todo.createdAt t).

Definition toggleCompleted (i : jsstring) (st : AppState) : AppState :=
  setTodos (map (fun t => if str_eqb (Todo.id t) i then flip t else t)) st.

Definition clearCompleted (st : AppState) : AppState :=
  let st' := setTodos (List.filter (fun t => negb (Todo.completed t))) st in
  if truthy (editingId st) then
    let stillExists :=
      existsb (fun t => is_target (editingId st) t && negb (Todo.completed t))
              (todos st) in
    if negb stillExists then cancelEdit st' else st'
  else st'.

(* ================================================================== *)
(** ** Derived views *)

(** The comparator of [visibleTodos]: [(a, b) => a.createdAt - b.createdAt]. *)
Definition byCreatedAt (a b : Todo.t) : number :=
  (Todo.createdAt a - Todo.createdAt b)%Q.

(** [0 < q], the test [Array.prototype.sort] makes on a comparator's
    result. *)
Definition is_positive (q : number) : bool := (0 <? Qnum q)%Z.

(** [Array.prototype.sort(cmp)] is stable; for a comparator that is a
    consistent ordering, as [byCreatedAt] is, its result is the one stable
    ordering of the elements, computed here by insertion. *)
Fixpoint insert_by {A} (cmp : A -> A -> number) (x : A) (l : list A) : list A :=
  match l with
  | [] => [x]
  | y :: r => if is_positive (cmp x y) then y :: insert_by cmp x r else x :: l
  end.

Fixpoint sort_by {A} (cmp : A -> A -> number) (l : list A) : list A :=
  match l with
  | [] => []
  | x :: r => insert_by cmp x (sort_by cmp r)
  end.

Definition visibleTodos (st : AppState) : list Todo.t :=
  let sorted := sort_by byCreatedAt (todos st) in
  match filter st with
  | FilterActive => List.filter (fun t => negb (Todo.completed t)) sorted
  | FilterCompleted => List.filter (fun t => Todo.completed t) sorted
  | FilterAll => sorted
  end.

(** *** The same computation on arrays held by reference

    [sort] works in place and returns its receiver, the spread and
    [filter] allocate a fresh array: the arrays live in a heap indexed
    by address. *)
Definition ref := nat.
Definition Heap := list (list Todo.t).

Definition read (h : Heap) (r : ref) : list Todo.t := nth r h [].

Definition alloc (a : list Todo.t) (h : Heap) : ref * Heap := (length h, h ++ [a]).

Fixpoint write (r : ref) (a : list Todo.t) (h : Heap) : Heap :=
  match h, r with
  | [], _ => []
  | _ :: h', O => a :: h'
  | x :: h', S r' => x :: write r' a h'
  end.

(** [arr.sort(cmp)] *)
Definition sort_in_place (cmp : Todo.t -> Todo.t -> number) (r : ref) (h : Heap)
  : ref * Heap :=
  (r, write r (sort_by cmp (read h r)) h).

(** The body of the [useMemo] of [visibleTodos], [todosRef] being the
    array held in the state. *)
Definition visibleTodos_heap (todosRef : ref) (f : Filter) (h : Heap) : ref * Heap :=
  let (copy, h1) := alloc (read h todosRef) h in
  let (sorted, h2) := sort_in_place byCreatedAt copy h1 in
  match f with
  | FilterActive =>
      alloc (List.filter (fun t => negb (Todo.completed t)) (read h2 sorted)) h2
  | FilterCompleted =>
      alloc (List.filter (fun t => Todo.completed t) (read h2 sorted)) h2
  | FilterAll => (sorted, h2)
  end.

(* ================================================================== *)
(** ** JSON values, [JSON.stringify] and [JSON.parse] *)

#[warnings="-register-all"]
Inductive json :=
| JNull
| JBool (b : bool)
| JNum (n : number)
| JStr (s : jsstring)
| JArr (elems : list json)
| JObj (members : list (jsstring * json)).

Definition hex_digit (d : N) : code_unit :=
  (if d <? 10 then 48 + d else 87 + d)%N.

(** [\uXXXX], lower-case as [JSON.stringify] writes it. *)
Definition unicode_escape (c : code_unit) : jsstring :=
  [92; 117; hex_digit (c / 4096 mod 16); hex_digit (c / 256 mod 16);
   hex_digit (c / 16 mod 16); hex_digit (c mod 16)]%N.

Definition is_high_surrogate (c : code_unit) : bool :=
  ((55296 <=? c) && (c <=? 56319))%N.

Definition is_low_surrogate (c : code_unit) : bool :=
  ((56320 <=? c) && (c <=? 57343))%N.

(** One code unit that is not a surrogate, as QuoteJSONString writes it. *)
Definition quote_unit (c : code_unit) : jsstring :=
  (if c =? 8 then [92; 98]
   else if c =? 9 then [92; 116]
   else if c =? 10 then [92; 110]
   else if c =? 12 then [92; 102]
   else if c =? 13 then [92; 114]
   else if c =? 34 then [92; 34]
   else if c =? 92 then [92; 92]
   else if c <? 32 then unicode_escape c
   else [c])%N.

(** The characters between the quotes: a surrogate pair is copied, a
    lone surrogate is escaped. *)
Fixpoint quote_units (s : jsstring) : jsstring :=
  match s with
  | [] => []
  | c :: r =>
      if is_high_surrogate c then
        match r with
        | d :: r' =>
            if is_low_surrogate d then c :: d :: quote_units r'
            else unicode_escape c ++ quote_units r
        | [] => unicode_escape c
        end
      else if is_low_surrogate c then unicode_escape c ++ quote_units r
      else quote_unit c ++ quote_units r
  end.

Definition quote (s : jsstring) : jsstring := [34%N] ++ quote_units s ++ [34%N].

(** [JSON.stringify(v)], without indentation. *)
Fixpoint JSON_stringify (v : json) : jsstring :=
  match v with
  | JNull => lit "null"
  | JBool true => lit "true"
  | JBool false => lit "false"
  | JNum n => number_to_string n
  | JStr s => quote s
  | JArr elems =>
      lit "["
        ++ (fix items (l : list json) : jsstring :=
              match l with
              | [] => []
              | x :: r =>
                  JSON_stringify x
                    ++ match r with [] => [] | _ :: _ => lit "," ++ items r end
              end) elems
        ++ lit "]"
  | JObj members =>
      lit "{"
        ++ (fix props (l : list (jsstring * json)) : jsstring :=
              match l with
              | [] => []
              | (k, x) :: r =>
                  quote k ++ lit ":" ++ JSON_stringify x
                    ++ match r with [] => [] | _ :: _ => lit "," ++ props r end
              end) members
        ++ lit "}"
  end.

(** A task as the JavaScript object the handlers build: the properties in
    their creation order. *)
Definition todo_value (t : Todo.t) : json :=
  JObj [(lit "id", JStr (Todo.id t));
        (lit "title", JStr (Todo.title t));
        (lit "completed", JBool (Todo.completed t));
        (lit "createdAt", JNum (Todo.createdAt t))].

Definition todos_value (ts : list Todo.t) : json := JArr (map todo_value ts).

(** *** The parser *)

Inductive parsed (A : Type) :=
| Ok (a : A) (rest : jsstring)
| SyntaxError
| OutOfFuel.

Arguments Ok {A} a rest.
Arguments SyntaxError {A}.
Arguments OutOfFuel {A}.

Definition is_json_space (c : code_unit) : bool :=
  ((c =? 9) || (c =? 10) || (c =? 13) || (c =? 32))%N.

Fixpoint skip_ws (s : jsstring) : jsstring :=
  match s with
  | c :: r => if is_json_space c then skip_ws r else s
  | [] => []
  end.

Definition is_digit (c : code_unit) : bool := ((48 <=? c) && (c <=? 57))%N.

Definition hex_value (c : code_unit) : option N :=
  (if (48 <=? c) && (c <=? 57) then Some (c - 48)
   else if (97 <=? c) && (c <=? 102) then Some (c - 87)
   else if (65 <=? c) && (c <=? 70) then Some (c - 55)
   else None)%N.

Definition hex4 (a b c d : code_unit) : option code_unit :=
  match hex_value a, hex_value b, hex_value c, hex_value d with
  | Some x, Some y, Some z, Some w => Some (((x * 16 + y) * 16 + z) * 16 + w)%N
  | _, _, _, _ => None
  end.

(** The character a one-letter escape stands for. *)
Definition simple_escape (e : code_unit) : option code_unit :=
  (if e =? 34 then Some 34
   else if e =? 92 then Some 92
   else if e =? 47 then Some 47
   else if e =? 98 then Some 8
   else if e =? 102 then Some 12
   else if e =? 110 then Some 10
   else if e =? 114 then Some 13
   else if e =? 116 then Some 9
   else None)%N.

Definition push (c : code_unit) (p : option (jsstring * jsstring))
  : option (jsstring * jsstring) :=
  match p with
  | Some (str, rest) => Some (c :: str, rest)
  | None => None
  end.

(** The characters of a string literal after its opening quote, up to
    and including the closing quote. *)
Fixpoint parse_chars (s : jsstring) : option (jsstring * jsstring) :=
  match s with
  | [] => None
  | c :: r =>
      if (c =? 34)%N then Some ([], r)
      else if (c =? 92)%N then
        match r with
        | [] => None
        | e :: r1 =>
            if (e =? 117)%N then
              match r1 with
              | h1 :: h2 :: h3 :: h4 :: r2 =>
                  match hex4 h1 h2 h3 h4 with
                  | Some u => push u (parse_chars r2)
                  | None => None
                  end
              | _ => None
              end
            else
              match simple_escape e with
              | Some u => push u (parse_chars r1)
              | None => None
              end
        end
      else if (c <? 32)%N then None
      else push c (parse_chars r)
  end.

Definition push_digit (c : code_unit) (d : Decimal.uint) : Decimal.uint :=
  (if c =? 48 then Decimal.D0 d
   else if c =? 49 then Decimal.D1 d
   else if c =? 50 then Decimal.D2 d
   else if c =? 51 then Decimal.D3 d
   else if c =? 52 then Decimal.D4 d
   else if c =? 53 then Decimal.D5 d
   else if c =? 54 then Decimal.D6 d
   else if c =? 55 then Decimal.D7 d
   else if c =? 56 then Decimal.D8 d
   else Decimal.D9 d)%N.

(** The longest prefix of decimal digits, and what follows it. *)
Fixpoint span_digits (s : jsstring) : Decimal.uint * jsstring :=
  match s with
  | c :: r =>
      if is_digit c then
        let (d, r') := span_digits r in (push_digit c d, r')
      else (Decimal.Nil, s)
  | [] => (Decimal.Nil, [])
  end.

(** The value of the literal [-? ip . fp e ex].

    Range of the model: the value is the exact rational the literal
    denotes.  It is the number [JSON.parse] returns for every literal whose
    value a double holds exactly, the integers of magnitude at most 2^53
    among them; the rounding of other literals to the nearest double and
    the overflow to [Infinity] are not modelled. *)
Definition number_of_literal (neg : bool) (ip fp : Decimal.uint) (ex : Z) : number :=
  let m := Z.of_uint (Decimal.app ip fp) in
  let m := if neg then (- m)%Z else m in
  let e := (ex - Z.of_nat (Decimal.nb_digits fp))%Z in
  if (0 <=? e)%Z then inject_Z (m * 10 ^ e)
  else Qred (Qmake m (Z.to_pos (10 ^ (- e)))).

Definition parse_fraction (s : jsstring) : option (Decimal.uint * jsstring) :=
  match s with
  | c :: r =>
      if (c =? 46)%N then
        match span_digits r with
        | (Decimal.Nil, _) => None
        | (f, r') => Some (f, r')
        end
      else Some (Decimal.Nil, s)
  | [] => Some (Decimal.Nil, [])
  end.

Definition parse_exponent (s : jsstring) : option (Z * jsstring) :=
  match s with
  | c :: r =>
      if ((c =? 101) || (c =? 69))%N then
        let (neg, r1) :=
          match r with
          | g :: r' =>
              if (g =? 45)%N then (true, r')
              else if (g =? 43)%N then (false, r')
              else (false, r)
          | [] => (false, r)
          end in
        match span_digits r1 with
        | (Decimal.Nil, _) => None
        | (d, r2) => Some (if neg then (- Z.of_uint d)%Z else Z.of_uint d, r2)
        end
      else Some (0%Z, s)
  | [] => Some (0%Z, [])
  end.

(** A number literal: an optional minus sign; an integer part that is
    either the digit 0 alone or starts with a non-zero digit; optionally a
    point and at least one digit; optionally [e] or [E], a sign and at
    least one digit.  A digit right after a leading 0 can follow no JSON
    number, so it is rejected here rather than by the caller. *)
Definition parse_unsigned (neg : bool) (s1 : jsstring) : option (number * jsstring) :=
  let (ip, s2) := span_digits s1 in
  match ip with
  | Decimal.Nil => None
  | Decimal.D0 (Decimal.D0 _ | Decimal.D1 _ | Decimal.D2 _ | Decimal.D3 _
                | Decimal.D4 _ | Decimal.D5 _ | Decimal.D6 _ | Decimal.D7 _
                | Decimal.D8 _ | Decimal.D9 _) => None
  | _ =>
      match parse_fraction s2 with
      | None => None
      | Some (fp, s3) =>
          match parse_exponent s3 with
          | None => None
          | Some (ex, s4) => Some (number_of_literal neg ip fp ex, s4)
          end
      end
  end.

Definition parse_number (s : jsstring) : option (number * jsstring) :=
  match s with
  | c :: r => if (c =? 45)%N then parse_unsigned true r else parse_unsigned false s
  | [] => None
  end.

Fixpoint strip_prefix (p s : jsstring) : option jsstring :=
  match p, s with
  | [], _ => Some s
  | a :: p', b :: s' => if (a =? b)%N then strip_prefix p' s' else None
  | _ :: _, [] => None
  end.

Definition keyword (p : jsstring) (v : json) (s : jsstring) : parsed json :=
  match strip_prefix p s with
  | Some rest => Ok v rest
  | None => SyntaxError
  end.

(** The JSON grammar by recursive descent.  [parse_elements] reads the
    elements of an array after its opening bracket, [parse_members] the
    members of an object after its opening brace; [acc] holds what has
    been read so far.  Every call hands a shorter text to the next, so the
    fuel [JSON_parse] provides is never exhausted ([JSON_parse_has_fuel]). *)
Fixpoint parse_value (fuel : nat) (s : jsstring) : parsed json :=
  match fuel with
  | O => OutOfFuel
  | S f =>
      match skip_ws s with
      | [] => SyntaxError
      | c :: r =>
          if (c =? 123)%N then
            match skip_ws r with
            | [] => SyntaxError
            | c' :: r' =>
                if (c' =? 125)%N then Ok (JObj []) r'
                else parse_members f (c' :: r') []
            end
          else if (c =? 91)%N then
            match skip_ws r with
            | [] => SyntaxError
            | c' :: r' =>
                if (c' =? 93)%N then Ok (JArr []) r'
                else parse_elements f (c' :: r') []
            end
          else if (c =? 34)%N then
            match parse_chars r with
            | Some (str, r') => Ok (JStr str) r'
            | None => SyntaxError
            end
          else if (c =? 116)%N then keyword (lit "rue") (JBool true) r
          else if (c =? 102)%N then keyword (lit "alse") (JBool false) r
          else if (c =? 110)%N then keyword (lit "ull") JNull r
          else if ((c =? 45) || is_digit c)%N then
            match parse_number (c :: r) with
            | Some (n, r') => Ok (JNum n) r'
            | None => SyntaxError
            end
          else SyntaxError
      end
  end

with parse_elements (fuel : nat) (s : jsstring) (acc : list json) : parsed json :=
  match fuel with
  | O => OutOfFuel
  | S f =>
      match parse_value f s with
      | Ok v r =>
          match skip_ws r with
          | [] => SyntaxError
          | c :: r' =>
              if (c =? 44)%N then parse_elements f r' (acc ++ [v])
              else if (c =? 93)%N then Ok (JArr (acc ++ [v])) r'
              else SyntaxError
          end
      | SyntaxError => SyntaxError
      | OutOfFuel => OutOfFuel
      end
  end

with parse_members (fuel : nat) (s : jsstring) (acc : list (jsstring * json))
  : parsed json :=
  match fuel with
  | O => OutOfFuel
  | S f =>
      match skip_ws s with
      | [] => SyntaxError
      | q :: r =>
          if (q =? 34)%N then
            match parse_chars r with
            | None => SyntaxError
            | Some (k, r1) =>
                match skip_ws r1 with
                | [] => SyntaxError
                | c :: r2 =>
                    if (c =? 58)%N then
                      match parse_value f r2 with
                      | Ok v r3 =>
                          match skip_ws r3 with
                          | [] => SyntaxError
                          | c' :: r4 =>
                              if (c' =? 44)%N
                              then parse_members f r4 (acc ++ [(k, v)])
                              else if (c' =? 125)%N
                                   then Ok (JObj (acc ++ [(k, v)])) r4
                                   else SyntaxError
                          end
                      | SyntaxError => SyntaxError
                      | OutOfFuel => OutOfFuel
                      end
                    else SyntaxError
                end
            end
          else SyntaxError
      end
  end.

(** [JSON.parse(text)]: [None] stands for the [SyntaxError] it throws. *)
Definition JSON_parse (text : jsstring) : option json :=
  match parse_value (S (2 * length text)) text with
  | Ok v rest =>
      match skip_ws rest with
      | [] => Some v
      | _ :: _ => None
      end
  | _ => None
  end.

(* ================================================================== *)
(** ** Rehydration and persistence *)

Inductive jstype := TUndefined | TObject | TBoolean | TNumber | TString.

Definition jstype_eqb (a b : jstype) : bool :=
  match a, b with
  | TUndefined, TUndefined | TObject, TObject | TBoolean, TBoolean
  | TNumber, TNumber | TString, TString => true
  | _, _ => false
  end.

(** [typeof v]; [None] is [undefined]. *)
Definition typeof (v : option json) : jstype :=
  match v with
  | None => TUndefined
  | Some JNull => TObject
  | Some (JBool _) => TBoolean
  | Some (JNum _) => TNumber
  | Some (JStr _) => TString
  | Some (JArr _) => TObject
  | Some (JObj _) => TObject
  end.

(** Truthiness of a parsed value, also [Boolean(v)]. *)
Definition ToBoolean (v : option json) : bool :=
  match v with
  | None => false
  | Some JNull => false
  | Some (JBool b) => b
  | Some (JNum n) => negb (Qeq_bool n 0)
  | Some (JStr s) => truthy (Some s)
  | Some (JArr _) => true
  | Some (JObj _) => true
  end.

(** The value [JSON.parse] leaves under a key: the last member written
    with it. *)
Fixpoint lookup_last (k : jsstring) (m : list (jsstring * json)) : option json :=
  match m with
  | [] => None
  | (k', v) :: r =>
      match lookup_last k r with
      | Some x => Some x
      | None => if str_eqb k' k then Some v else None
      end
  end.

(** [t.k] for [k] one of [id], [title], [completed], [createdAt]: an own
    property of a parsed object, [undefined] on an array.  The source
    reads properties only behind the guard [t && typeof t === "object"]. *)
Definition get_prop (t : json) (k : jsstring) : option json :=
  match t with
  | JObj m => lookup_last k m
  | _ => None
  end.

(** The predicate of the [filter] in [parseStoredTodos]. *)
Definition conforming (t : json) : bool :=
  ToBoolean (Some t)
  && jstype_eqb (typeof (Some t)) TObject
  && jstype_eqb (typeof (get_prop t (lit "id"))) TString
  && jstype_eqb (typeof (get_prop t (lit "title"))) TString
  && jstype_eqb (typeof (get_prop t (lit "completed"))) TBoolean.

Definition string_of (v : option json) : jsstring :=
  match v with Some (JStr s) => s | _ => [] end.

Definition number_of (v : option json) : number :=
  match v with Some (JNum n) => n | _ => 0%Q end.

(** The callback of the [map] in [parseStoredTodos]. *)
Definition toTodo (env : Env) (t : json) : M Todo.t :=
  let c := get_prop t (lit "createdAt") in
  createdAt <- (if jstype_eqb (typeof c) TNumber then ret (number_of c)
                else z <- now env ;; ret (inject_Z z)) ;;
  ret (Todo.mk (string_of (get_prop t (lit "id")))
               (string_of (get_prop t (lit "title")))
               (ToBoolean (get_prop t (lit "completed")))
               createdAt).

Fixpoint mapM {A B} (f : A -> M B) (l : list A) : M (list B) :=
  match l with
  | [] => ret []
  | x :: r => y <- f x ;; ys <- mapM f r ;; ret (y :: ys)
  end.

(** [parseStoredTodos(value)]: [value] is [null]/[undefined] ([None]) or
    the stored text. *)
Definition parseStoredTodos (env : Env) (value : option jsstring) : M (list Todo.t) :=
  if negb (truthy value) then ret []
  else
    match value with
    | None => ret []
    | Some text =>
        match JSON_parse text with
        | None => ret []
        | Some (JArr elems) => mapM (toTodo env) (List.filter conforming elems)
        | Some _ => ret []
        end
    end.

(** [window.localStorage]: the stored items, and whether the browser
    takes a write (it throws when storage is blocked or full). *)
Record Storage := {
  items : jsstring -> option jsstring;
  accepts : jsstring -> jsstring -> bool
}.

Definition getItem (k : jsstring) (ls : Storage) : option jsstring := items ls k.

(** [None] stands for the exception of a refused write. *)
Definition setItem (k v : jsstring) (ls : Storage) : option Storage :=
  if accepts ls k v
  then Some {| items := fun k' => if str_eqb k' k then Some v else items ls k';
               accepts := accepts ls |}
  else None.

(** The initializer of the [todos] state;
    [localStorage] is [None] where the browser has none. *)
Definition initialTodos (env : Env) (localStorage : option Storage) : M (list Todo.t) :=
  parseStoredTodos env
    (match localStorage with
     | Some ls => getItem STORAGE_KEY ls
     | None => None
     end).

(** The persistence effect, run after a render that changed [todos]. *)
Definition persist (ts : list Todo.t) (localStorage : option Storage) : option Storage :=
  match localStorage with
  | Some ls =>
      match setItem STORAGE_KEY (JSON_stringify (todos_value ts)) ls with
      | Some ls' => Some ls'
      | None => Some ls
      end
  | None => None
  end.

(** The initial render of [App]. *)
Definition initialState (ts : list Todo.t) : AppState :=
  {| todos := ts; newTitle := []; editingId := None; editingTitle := [];
     filter := FilterAll; error := [] |}.

(** The collections a session builds from the empty one by Create,
    Toggle, Delete and CommitEdit, the titles passing [validateTitle]. *)
Inductive built (env : Env) : list Todo.t -> Prop :=
| built_empty : built env []
| built_create st w :
    built env (todos st) ->
    validateTitle (newTitle st) = None ->
    built env (todos (fst (addTodo env st w)))
| built_toggle st i :
    built env (todos st) ->
    built env (todos (toggleCompleted i st))
| built_delete st i :
    built env (todos st) ->
    built env (todos (deleteTodo i st))
| built_commit st w :
    built env (todos st) ->
    validateTitle (editingTitle st) = None ->
    built env (todos (fst (commitEdit st w))).


(* ================================================================== *)
(** ** Vocabulary of the statements *)

(** The two messages of [validateTitle]. *)
Definition validation_message (msg : jsstring) : Prop :=
  msg = lit "Please type a task name."
  \/ msg = lit "Task name is too long (max 120 chars).".

(** The state a handler reaches and the world it leaves. *)
Definition next_state {A} (r : A * World) : A := fst r.
Definition next_world {A} (r : A * World) : World := snd r.

(** A handler that only surfaced [msg]: every other field is as before. *)
Definition only_error_changed (msg : jsstring) (st st' : AppState) : Prop :=
  todos st' = todos st /\ newTitle st' = newTitle st
  /\ editingId st' = editingId st /\ editingTitle st' = editingTitle st
  /\ filter st' = filter st /\ error st' = msg.


(** Ascending by [createdAt]: every task is at most as recent as each
    task after it. *)
Definition ascending (l : list Todo.t) : Prop :=
  StronglySorted (fun a b => (Todo.createdAt a <= Todo.createdAt b)%Q) l.

(** Filter(view): what [visibleTodos] shows once the filter is [f]. *)
Definition view (f : Filter) (st : AppState) : list Todo.t :=
  visibleTodos (setFilter f st).

Definition ids (ts : list Todo.t) : list jsstring := map Todo.id ts.

(* ================================================================== *)
(** ** Sample sessions *)

(** A host whose clock stands at [t] and whose random source repeats [r]. *)
Definition steady_env (t : Z) (r : jsstring) : Env :=
  {| Date_now := fun _ => t; Math_random_toString36 := fun _ => r |}.

Definition fresh_world : World :=
  {| clock_reads := 0; random_reads := 0; timeouts := [] |}.

Definition task (i title : jsstring) (done : bool) (at_ms : Z) : Todo.t :=
  Todo.mk i title done (inject_Z at_ms).

(** Two tasks that share an id, as a stored list may hold them. *)
Definition twins : list Todo.t :=
  [task (lit "x") (lit "first") false 1; task (lit "x") (lit "second") true 2].

(** An edit in progress on a task whose id is the empty string, the task
    being completed. *)
Definition editing_empty_id : AppState :=
  {| todos := [task [] (lit "x") true 1; task (lit "b") (lit "y") false 2];
     newTitle := []; editingId := Some []; editingTitle := lit "x";
     filter := FilterAll; error := [] |}.

(** The stored text that leads there: load it, start editing the first
    task, toggle it. *)
Definition stored_empty_id : jsstring :=
  JSON_stringify
    (todos_value [task [] (lit "x") false 1; task (lit "b") (lit "y") false 2]).

(** An edit whose target [zz] is not in the collection. *)
Definition stale_edit : AppState :=
  {| todos := [task (lit "a") (lit "x") false 1];
     newTitle := []; editingId := Some (lit "zz"); editingTitle := lit "y";
     filter := FilterAll; error := [] |}.

(** A stored element the loader keeps: an object whose [id] and [title]
    are strings and whose [completed] is a boolean. *)
Definition task_record (e : json) : Prop :=
  exists m i t c,
    e = JObj m
    /\ lookup_last (lit "id") m = Some (JStr i)
    /\ lookup_last (lit "title") m = Some (JStr t)
    /\ lookup_last (lit "completed") m = Some (JBool c).

(** The task [t] made of the stored element [e] during a load that took
    the world from [w] to [w']: id, title and completed flag are those of
    [e]; createdAt is the number stored in [e] or, when [e] has no numeric
    createdAt, a reading of the clock taken during the load. *)
Definition rehydrated (env : Env) (w w' : World) (e : json) (t : Todo.t) : Prop :=
  get_prop e (lit "id") = Some (JStr (Todo.id t))
  /\ get_prop e (lit "title") = Some (JStr (Todo.title t))
  /\ get_prop e (lit "completed") = Some (JBool (Todo.completed t))
  /\ ((exists n, get_prop e (lit "createdAt") = Some (JNum n) /\ Todo.createdAt t = n)
      \/ ((forall n, get_prop e (lit "createdAt") <> Some (JNum n))
          /\ exists k, clock_reads w <= k < clock_reads w'
                       /\ Todo.createdAt t = inject_Z (Date_now env k))).

(** The text between the brackets of a stringified array. *)
Fixpoint items_text (l : list json) : jsstring :=
  match l with
  | [] => []
  | x :: r =>
      JSON_stringify x ++ match r with [] => [] | _ :: _ => lit "," ++ items_text r end
  end.

(** A task whose [createdAt] is an integer, as [Date.now()] gives it. *)
Definition integral (t : Todo.t) : Prop :=
  exists z, Todo.createdAt t = inject_Z z.

(** A session that created one task, and a browser storage that takes
    every write. *)
Definition one_task_session : AppState * World :=
  addTodo (steady_env 1700000000000 (lit "0.4fzyo82mvyr"))
          (setNewTitle (lit "  Buy milk ") (initialState [])) fresh_world.

Definition roomy_storage : Storage :=
  {| items := fun _ => None; accepts := fun _ _ => true |}.

(** Two tasks with distinct ids, none being edited. *)
Definition two_tasks : AppState :=
  initialState [task (lit "a") (lit "Buy milk") false 10;
                task (lit "b") (lit "Write report") true 20].

(** A stored array with a task that lacks its createdAt, a number, and a
    complete task. *)
Definition mixed_elements : list json :=
  [JObj [(lit "id", JStr (lit "a")); (lit "title", JStr (lit "x"));
         (lit "completed", JBool false)];
   JNum 1%Q;
   JObj [(lit "id", JStr (lit "b")); (lit "title", JStr (lit "y"));
         (lit "completed", JBool true); (lit "createdAt", JNum 7%Q)]].

(* ================================================================== *)
(** ** What the page shows *)

(** [counts], the memo over [getCounts(todos)]. *)
Definition counts (st : AppState) : Counts.t := getCounts (todos st).

(** One [<li>] of the list: the task, and whether its edit form is shown
    in place of its title ([isEditing = editingId === todo.id]). *)
Record Row := { row_todo : Todo.t; isEditing : bool }.

(** The body of the task panel: one of the two notices, or the list. *)
Inductive ListPanel :=
| NoTasksYet
| NoTasksMatch
| TodoList (rows : list Row).

(** The conditional that renders the task panel: [todos.length === 0],
    then [visibleTodos.length === 0], then the [map] over [visibleTodos]. *)
Definition listPanel (st : AppState) : ListPanel :=
  if length (todos st) =? 0 then NoTasksYet
  else if length (visibleTodos st) =? 0 then NoTasksMatch
  else TodoList (map (fun todo => {| row_todo := todo;
                                     isEditing := is_target (editingId st) todo |})
                     (visibleTodos st)).

(** The [disabled] attribute of the Clear completed button. *)
Definition clearCompletedDisabled (st : AppState) : bool :=
  Counts.completed (counts st) =? 0.

(** ** Vocabulary of the further statements *)

(** What Toggle(i) makes of one task. *)
Definition toggled (i : jsstring) (t t' : Todo.t) : Prop :=
  Todo.id t' = Todo.id t
  /\ Todo.title t' = Todo.title t
  /\ Todo.createdAt t' = Todo.createdAt t
  /\ (Todo.id t = i -> Todo.completed t' = negb (Todo.completed t))
  /\ (Todo.id t <> i -> t' = t).

(** A stored element without a numeric [createdAt]. *)
Definition lacks_createdAt (e : json) : bool :=
  negb (jstype_eqb (typeof (get_prop e (lit "createdAt"))) TNumber).

(** A task as Create and CommitEdit leave it: a non-empty id, and a title
    that is already trimmed and passes [validateTitle]. *)
Definition wellformed (t : Todo.t) : Prop :=
  Todo.id t <> []
  /\ trim (Todo.title t) = Todo.title t
  /\ validateTitle (Todo.title t) = None.

(** ** Further sample states *)

(** The two tasks while the first is being edited, the buffer changed. *)
Definition editing_first : AppState :=
  setEditingTitle (lit " Buy oat milk ") (setEditingId (Some (lit "a")) two_tasks).

(** The two tasks while the completed one is being edited. *)
Definition editing_second : AppState :=
  setEditingTitle (lit "Write report") (setEditingId (Some (lit "b")) two_tasks).

(** One completed task, seen under the filter Active. *)
Definition all_done_active : AppState :=
  setFilter FilterActive (initialState [task (lit "a") (lit "x") true 1]).

Definition typing_report : AppState := setNewTitle (lit "  Write report ") two_tasks.

Definition sample_env : Env := steady_env 1700000000000 (lit "0.4fzyo82mvyr").

(** A task whose [createdAt] is a safe integer: one of magnitude at most
    2^53, which a double holds exactly and which prints in plain digits. *)
Definition safe_integral (t : Todo.t) : Prop :=
  exists z, Todo.createdAt t = inject_Z z /\ (Z.abs z <= 9007199254740992)%Z.

(** The clock returns time values: at most 8.64e15 milliseconds either
    side of the epoch. *)
Definition clock_in_range (env : Env) : Prop :=
  forall n, (Z.abs (Date_now env n) <= 8640000000000000)%Z.

(* ================================================================== *)
(** * Properties *)

(** ** Strings and validation *)

Lemma str_eqb_eq (a b : jsstring) : str_eqb a b = true <-> a = b.
Proof.
  revert b; induction a as [|x a IH]; intros [|y b]; simpl; split;
    try congruence; try reflexivity.
  - intros H. apply andb_true_iff in H as [Hx Hr].
    apply N.eqb_eq in Hx. apply IH in Hr. congruence.
  - intros H. injection H as -> ->.
    rewrite N.eqb_refl. simpl. now apply IH.
Qed.

Lemma str_eqb_refl (a : jsstring) : str_eqb a a = true.
Proof. now apply str_eqb_eq. Qed.

Lemma str_eqb_neq (a b : jsstring) : str_eqb a b = false <-> a <> b.
Proof.
  rewrite <- str_eqb_eq. destruct (str_eqb a b); split; congruence.
Qed.

Lemma truthy_Some (s : jsstring) : truthy (Some s) = true <-> s <> [].
Proof. destruct s; simpl; split; congruence. Qed.

Lemma validation_message_nonempty msg : validation_message msg -> msg <> [].
Proof. intros [-> | ->]; discriminate. Qed.

Lemma validateTitle_accepts (s : jsstring) :
  validateTitle s = None <-> trim s <> [] /\ length (trim s) <= 120.
Proof.
  unfold validateTitle.
  destruct (trim s) as [|c r] eqn:E; simpl.
  - split; [discriminate | intros [H _]; now elim H].
  - destruct (Nat.ltb_spec 120 (S (length r))) as [H | H]; split;
      try discriminate; try (intros [_ H']; lia); intros _; split;
      [discriminate | lia].
Qed.

Lemma validateTitle_rejects (s : jsstring) :
  trim s = [] \/ 120 < length (trim s) ->
  exists msg, validateTitle s = Some msg /\ validation_message msg.
Proof.
  unfold validateTitle, validation_message.
  destruct (trim s) as [|c r]; simpl; intros [H | H]; try discriminate;
    try (simpl in H; lia); eauto.
  destruct (Nat.ltb_spec 120 (S (length r))); [eauto | simpl in H; lia].
Qed.

Lemma truthy_validation (s : jsstring) (msg : jsstring) :
  validateTitle s = Some msg -> truthy (validateTitle s) = true.
Proof.
  unfold validateTitle.
  destruct (negb (truthy (Some (trim s)))); [reflexivity |].
  destruct (120 <? length (trim s)); [reflexivity | discriminate].
Qed.

(** ** Create *)

Lemma addTodo_rejected env st w msg :
  validateTitle (newTitle st) = Some msg ->
  addTodo env st w = (setError msg st, snd (clearErrorSoon w)).
Proof.
  intros H. unfold addTodo.
  rewrite (truthy_validation _ _ H), H. reflexivity.
Qed.

Lemma addTodo_accepted env st w :
  validateTitle (newTitle st) = None ->
  addTodo env st w =
    (let (i, w1) := generateId env w in
     let (c, w2) := now env w1 in
     (setError [] (setNewTitle []
        (setTodos (fun prev => prev ++ [Todo.mk i (trim (newTitle st)) false (inject_Z c)])
                  st)), w2)).
Proof.
  intros H. unfold addTodo. rewrite H. reflexivity.
Qed.

(** C2. A title whose trimmed form is empty or longer than 120 code
    units makes Create surface one of the two validation messages (a
    non-empty text) and change nothing else: the collection, the input
    field, the edit state and the filter are as before, the clock and the
    random source are not consulted, and the only effect is the timer that
    will clear the message. *)
Theorem addTodo_invalid_title_rejected (env : Env) (st : AppState) (w : World) :
  trim (newTitle st) = [] \/ 120 < length (trim (newTitle st)) ->
  exists msg,
    validation_message msg /\ msg <> []
    /\ only_error_changed msg st (next_state (addTodo env st w))
    /\ todos (next_state (addTodo env st w)) = todos st
    /\ clock_reads (next_world (addTodo env st w)) = clock_reads w
    /\ random_reads (next_world (addTodo env st w)) = random_reads w
    /\ timeouts (next_world (addTodo env st w)) = timeouts w ++ [2500%N].
Proof.
  intros H. destruct (validateTitle_rejects _ H) as (msg & Hv & Hm).
  exists msg. rewrite (addTodo_rejected env st w msg Hv).
  split; [exact Hm |]. split; [now apply validation_message_nonempty |].
  unfold only_error_changed. simpl. repeat split; reflexivity.
Qed.

(** ** CommitEdit *)

Lemma commitEdit_rejected st w msg :
  validateTitle (editingTitle st) = Some msg ->
  commitEdit st w = (setError msg st, snd (clearErrorSoon w)).
Proof.
  intros H. unfold commitEdit.
  rewrite (truthy_validation _ _ H), H. reflexivity.
Qed.

Lemma commitEdit_accepted st w :
  validateTitle (editingTitle st) = None ->
  commitEdit st w =
    (setError [] (setEditingTitle [] (setEditingId None
       (setTodos (map (fun t => if is_target (editingId st) t
                                then retitle (trim (editingTitle st)) t else t))
                 st))), w).
Proof.
  intros H. unfold commitEdit. rewrite H. reflexivity.
Qed.

Lemma is_editing_true target i : is_editing target i = true <-> target = Some i.
Proof.
  destruct target as [e|]; simpl; [| split; discriminate].
  rewrite str_eqb_eq. split; [intros ->; reflexivity | now intros [= ->]].
Qed.

Lemma is_target_true target t : is_target target t = true <-> target = Some (Todo.id t).
Proof. apply is_editing_true. Qed.






(** ** Ordering by [createdAt] *)

Lemma is_positive_byCreatedAt (x y : Todo.t) :
  is_positive (byCreatedAt x y) = true <-> (Todo.createdAt y < Todo.createdAt x)%Q.
Proof.
  unfold is_positive, byCreatedAt, Qlt.
  destruct (Todo.createdAt x) as [nx dx], (Todo.createdAt y) as [ny dy]; simpl.
  rewrite Z.ltb_lt. lia.
Qed.

Lemma not_positive_byCreatedAt (x y : Todo.t) :
  is_positive (byCreatedAt x y) = false <-> (Todo.createdAt x <= Todo.createdAt y)%Q.
Proof.
  rewrite <- not_true_iff_false, is_positive_byCreatedAt.
  split; [apply Qnot_lt_le | apply Qle_not_lt].
Qed.

Section Sorting.
Context {A : Type} (cmp : A -> A -> number).

Lemma insert_by_In (x z : A) (l : list A) :
  In z (insert_by cmp x l) <-> z = x \/ In z l.
Proof.
  induction l as [|y r IH]; simpl.
  - intuition.
  - destruct (is_positive (cmp x y)); simpl; rewrite ?IH; intuition.
Qed.

Lemma sort_by_In (z : A) (l : list A) : In z (sort_by cmp l) <-> In z l.
Proof.
  induction l as [|x r IH]; simpl; [reflexivity |].
  rewrite insert_by_In, IH. intuition.
Qed.

Lemma insert_by_Permutation (x : A) (l : list A) :
  Permutation (insert_by cmp x l) (x :: l).
Proof.
  induction l as [|y r IH]; simpl; [reflexivity |].
  destruct (is_positive (cmp x y)); [| reflexivity].
  rewrite IH. apply perm_swap.
Qed.

Lemma sort_by_Permutation (l : list A) : Permutation (sort_by cmp l) l.
Proof.
  induction l as [|x r IH]; simpl; [reflexivity |].
  rewrite insert_by_Permutation. now constructor.
Qed.
End Sorting.

Lemma insert_by_ascending (x : Todo.t) (l : list Todo.t) :
  ascending l -> ascending (insert_by byCreatedAt x l).
Proof.
  unfold ascending. induction l as [|y r IH]; intros Hs; simpl.
  - constructor; constructor.
  - apply StronglySorted_inv in Hs as [Hr Hy].
    destruct (is_positive (byCreatedAt x y)) eqn:E.
    + apply is_positive_byCreatedAt in E.
      constructor; [now apply IH |].
      apply Forall_forall. intros z Hz. apply insert_by_In in Hz as [-> | Hz].
      * now apply Qlt_le_weak.
      * rewrite Forall_forall in Hy. now apply Hy.
    + apply not_positive_byCreatedAt in E.
      constructor; [now constructor |].
      constructor; [exact E |].
      eapply Forall_impl; [| exact Hy]. intros z Hz. simpl in Hz.
      eapply Qle_trans; eassumption.
Qed.

Lemma sort_by_ascending (l : list Todo.t) : ascending (sort_by byCreatedAt l).
Proof.
  induction l as [|x r IH]; simpl; [constructor | now apply insert_by_ascending].
Qed.

Lemma filter_ascending (p : Todo.t -> bool) (l : list Todo.t) :
  ascending l -> ascending (List.filter p l).
Proof.
  unfold ascending. induction l as [|x r IH]; intros Hs; simpl; [constructor |].
  apply StronglySorted_inv in Hs as [Hr Hx].
  destruct (p x); [| now apply IH].
  constructor; [now apply IH |].
  apply Forall_forall. intros z Hz. apply filter_In in Hz as [Hz _].
  rewrite Forall_forall in Hx. now apply Hx.
Qed.

Lemma insert_by_snoc (a x : Todo.t) (m : list Todo.t) :
  (Todo.createdAt a <= Todo.createdAt x)%Q ->
  insert_by byCreatedAt a (m ++ [x]) = insert_by byCreatedAt a m ++ [x].
Proof.
  intros H. induction m as [|y r IH]; simpl.
  - apply not_positive_byCreatedAt in H. now rewrite H.
  - destruct (is_positive (byCreatedAt a y)); [now rewrite IH | reflexivity].
Qed.

(** A task at least as recent as all the others, appended last, stays
    last: the sort is stable. *)
Lemma sort_by_snoc (x : Todo.t) (l : list Todo.t) :
  Forall (fun t => (Todo.createdAt t <= Todo.createdAt x)%Q) l ->
  sort_by byCreatedAt (l ++ [x]) = sort_by byCreatedAt l ++ [x].
Proof.
  induction 1 as [|a l Ha Hl IH]; simpl; [reflexivity |].
  rewrite IH. now apply insert_by_snoc.
Qed.

(** C1 (as the code has it). A title whose trimmed form is non-empty and
    at most 120 code units long makes Create append exactly one task to
    the end of the collection: its title is the trimmed title, it is not
    completed, its id is the generated one and its createdAt is the clock
    reading taken right after the id was generated; the tasks that were
    there are unchanged and keep their places.  When that reading is at
    least the createdAt of every existing task, the new task comes last
    in the default view. *)
Theorem addTodo_appends_task (env : Env) (st : AppState) (w : World) :
  trim (newTitle st) <> [] -> length (trim (newTitle st)) <= 120 ->
  let st' := next_state (addTodo env st w) in
  exists next,
    todos st' = todos st ++ [next]
    /\ Todo.title next = trim (newTitle st)
    /\ Todo.completed next = false
    /\ Todo.id next = next_state (generateId env w)
    /\ Todo.createdAt next = inject_Z (Date_now env (S (clock_reads w)))
    /\ (Forall (fun t => (Todo.createdAt t <= Todo.createdAt next)%Q) (todos st) ->
        view FilterAll st' = view FilterAll st ++ [next]).
Proof.
  intros H1 H2.
  assert (Hv : validateTitle (newTitle st) = None)
    by (apply validateTitle_accepts; auto).
  rewrite (addTodo_accepted env st w Hv). simpl.
  eexists. split; [reflexivity |]. simpl.
  repeat split; try reflexivity.
  intros Hall. unfold view, visibleTodos. simpl. now apply sort_by_snoc.
Qed.

(** The claim C1 fails where an existing task is more recent than the
    clock: the task Create adds is then older than it and comes first in
    the default view. *)
Lemma addTodo_may_sort_first :
  let st := setNewTitle (lit "new") (initialState [task (lit "a") (lit "old") false 2000]) in
  let st' := next_state (addTodo (steady_env 1000 (lit "0.abc")) st fresh_world) in
  trim (newTitle st) <> [] /\ length (trim (newTitle st)) <= 120
  /\ exists next,
       todos st' = todos st ++ [next]
       /\ ~ Forall (fun t => (Todo.createdAt t <= Todo.createdAt next)%Q) (todos st)
       /\ view FilterAll st' = next :: todos st
       /\ last (view FilterAll st') next <> next.
Proof.
  cbv zeta. split; [discriminate |]. split; [vm_compute; lia |].
  eexists. split; [vm_compute; reflexivity |].
  split; [| split; [vm_compute; reflexivity | vm_compute; discriminate]].
  intros H. apply Forall_inv in H. vm_compute in H. now apply H.
Qed.

(** ** The views *)

Lemma view_all st : view FilterAll st = sort_by byCreatedAt (todos st).
Proof. reflexivity. Qed.

Lemma view_active st :
  view FilterActive st =
    List.filter (fun t => negb (Todo.completed t)) (sort_by byCreatedAt (todos st)).
Proof. reflexivity. Qed.

Lemma view_completed st :
  view FilterCompleted st =
    List.filter (fun t => Todo.completed t) (sort_by byCreatedAt (todos st)).
Proof. reflexivity. Qed.

Lemma view_ascending f st : ascending (view f st).
Proof.
  destruct f; [apply sort_by_ascending | |];
    apply filter_ascending, sort_by_ascending.
Qed.

Lemma firstn_length_app {A} (h k : list A) : firstn (length h) (h ++ k) = h.
Proof. induction h; simpl; [now destruct k | congruence]. Qed.

Lemma read_alloc (a : list Todo.t) (h : Heap) : read (snd (alloc a h)) (fst (alloc a h)) = a.
Proof.
  unfold read, alloc; simpl. rewrite app_nth2, Nat.sub_diag by lia. reflexivity.
Qed.

Lemma write_last (a b : list Todo.t) (h : Heap) :
  write (length h) b (h ++ [a]) = h ++ [b].
Proof. induction h; simpl; congruence. Qed.

Lemma visibleTodos_heap_unfold todosRef f h :
  let sorted := sort_by byCreatedAt (read h todosRef) in
  visibleTodos_heap todosRef f h =
    match f with
    | FilterAll => (length h, h ++ [sorted])
    | FilterActive =>
        (S (length h),
         (h ++ [sorted]) ++ [List.filter (fun t => negb (Todo.completed t)) sorted])
    | FilterCompleted =>
        (S (length h),
         (h ++ [sorted]) ++ [List.filter (fun t => Todo.completed t) sorted])
    end.
Proof.
  unfold visibleTodos_heap, sort_in_place, alloc. cbv zeta.
  assert (R : read (h ++ [read h todosRef]) (length h) = read h todosRef)
    by apply (read_alloc (read h todosRef) h).
  assert (R2 : forall s, read (h ++ [s]) (length h) = s)
    by (intros s; apply (read_alloc s h)).
  rewrite R, write_last. destruct f; rewrite ?R2;
    rewrite ?length_app; simpl; rewrite ?Nat.add_1_r; reflexivity.
Qed.

(** C6. In every state the tasks of the active view together with those
    of the completed view are exactly the tasks of the view of all, which
    are exactly the tasks of the collection; each of the three views is
    ascending by createdAt; and computing a view, on arrays held by
    reference, leaves every array that existed (the collection among
    them) as it was, the view being a new array. *)
Theorem views_partition_sorted_pure (st : AppState) :
  (forall t, In t (view FilterAll st)
             <-> In t (view FilterActive st) \/ In t (view FilterCompleted st))
  /\ (forall t, In t (view FilterAll st) <-> In t (todos st))
  /\ Permutation (view FilterAll st) (todos st)
  /\ (forall f, ascending (view f st))
  /\ (forall (h : Heap) (todosRef : ref) (f : Filter),
        firstn (length h) (snd (visibleTodos_heap todosRef f h)) = h
        /\ read (snd (visibleTodos_heap todosRef f h))
                (fst (visibleTodos_heap todosRef f h))
           = view f (initialState (read h todosRef))).
Proof.
  split; [| split; [| split; [| split]]].
  - intros t. rewrite view_all, view_active, view_completed, !filter_In.
    destruct (Todo.completed t); simpl; intuition congruence.
  - intros t. rewrite view_all. apply sort_by_In.
  - rewrite view_all. apply sort_by_Permutation.
  - intros f. apply view_ascending.
  - intros h todosRef f. pose proof (visibleTodos_heap_unfold todosRef f h) as E.
    cbv zeta in E. rewrite E. clear E.
    destruct f; simpl.
    + split; [apply firstn_length_app |].
      apply (read_alloc _ h).
    + split; [rewrite <- app_assoc; apply firstn_length_app |].
      set (h1 := h ++ [sort_by byCreatedAt (read h todosRef)]).
      replace (S (length h)) with (length h1)
        by (unfold h1; rewrite length_app; simpl; lia).
      apply (read_alloc _ h1).
    + split; [rewrite <- app_assoc; apply firstn_length_app |].
      set (h1 := h ++ [sort_by byCreatedAt (read h todosRef)]).
      replace (S (length h)) with (length h1)
        by (unfold h1; rewrite length_app; simpl; lia).
      apply (read_alloc _ h1).
Qed.

(** ** Handlers that keep or drop tasks *)

Lemma setTodos_id (f : list Todo.t -> list Todo.t) (st : AppState) :
  f (todos st) = todos st -> setTodos f st = st.
Proof. destruct st; unfold setTodos; simpl; intros ->; reflexivity. Qed.

Lemma todos_deleteTodo i st :
  todos (deleteTodo i st)
  = List.filter (fun t => negb (str_eqb (Todo.id t) i)) (todos st).
Proof.
  unfold deleteTodo. destruct (is_editing (editingId st) i); reflexivity.
Qed.

Lemma todos_clearCompleted st :
  todos (clearCompleted st) = List.filter (fun t => negb (Todo.completed t)) (todos st).
Proof.
  unfold clearCompleted. destruct (truthy (editingId st)); [| reflexivity].
  destruct (negb _); reflexivity.
Qed.

Lemma filter_absent_id (i : jsstring) (ts : list Todo.t) :
  ~ In i (ids ts) ->
  List.filter (fun t => negb (str_eqb (Todo.id t) i)) ts = ts.
Proof.
  induction ts as [|t ts IH]; simpl; intros H; [reflexivity |].
  destruct (str_eqb (Todo.id t) i) eqn:E; simpl.
  - apply str_eqb_eq in E. elim H. now left.
  - rewrite IH; [reflexivity | tauto].
Qed.

Lemma map_absent_id (i : jsstring) (g : Todo.t -> Todo.t) (ts : list Todo.t) :
  ~ In i (ids ts) ->
  map (fun t => if str_eqb (Todo.id t) i then g t else t) ts = ts.
Proof.
  induction ts as [|t ts IH]; simpl; intros H; [reflexivity |].
  destruct (str_eqb (Todo.id t) i) eqn:E.
  - apply str_eqb_eq in E. elim H. now left.
  - rewrite IH; [reflexivity | tauto].
Qed.

Lemma filter_splits_unique_id (i : jsstring) (ts : list Todo.t) :
  NoDup (ids ts) -> In i (ids ts) ->
  exists l1 t l2,
    ts = l1 ++ t :: l2 /\ Todo.id t = i
    /\ List.filter (fun t => negb (str_eqb (Todo.id t) i)) ts = l1 ++ l2.
Proof.
  induction ts as [|t ts IH]; simpl; intros Hnd Hin; [contradiction |].
  apply NoDup_cons_iff in Hnd as [Hnot Hnd].
  destruct (str_eqb (Todo.id t) i) eqn:E; simpl.
  - apply str_eqb_eq in E. exists [], t, ts. simpl.
    rewrite filter_absent_id; [auto | congruence].
  - apply str_eqb_neq in E. destruct Hin as [Hin | Hin]; [congruence |].
    destruct (IH Hnd Hin) as (l1 & u & l2 & -> & Hu & Hf).
    exists (t :: l1), u, l2. simpl. rewrite Hf. auto.
Qed.

Lemma length_filter_by_id (i : jsstring) (ts : list Todo.t) :
  length (List.filter (fun t => negb (str_eqb (Todo.id t) i)) ts)
    + length (List.filter (fun t => str_eqb (Todo.id t) i) ts)
  = length ts.
Proof.
  induction ts as [|t ts IH]; [reflexivity |].
  cbn [List.filter]. destruct (str_eqb (Todo.id t) i); cbn [negb length]; lia.
Qed.

(** C7 (as the code has it). Delete(id) removes every task whose id is
    [id] and no other: the collection afterwards is the collection before
    without the tasks of that id, the remaining tasks in their order, no
    task has that id any more, and the total goes down by the number of
    tasks that had it.  When the ids of the collection are pairwise
    distinct and a task has that id, exactly that one task is removed, the
    others keep their order, and the total goes down by exactly 1; when no
    task has that id the collection and the total stay as they are. *)
Theorem deleteTodo_removes_the_task (i : jsstring) (st : AppState) :
  (todos (deleteTodo i st)
   = List.filter (fun t => negb (str_eqb (Todo.id t) i)) (todos st)
   /\ (forall t, In t (todos (deleteTodo i st)) <-> In t (todos st) /\ Todo.id t <> i)
   /\ ~ In i (ids (todos (deleteTodo i st)))
   /\ Counts.total (getCounts (todos (deleteTodo i st)))
        + length (List.filter (fun t => str_eqb (Todo.id t) i) (todos st))
      = Counts.total (getCounts (todos st)))
  /\
  (NoDup (ids (todos st)) -> In i (ids (todos st)) ->
   exists l1 t l2,
     todos st = l1 ++ t :: l2 /\ Todo.id t = i
     /\ todos (deleteTodo i st) = l1 ++ l2
     /\ Counts.total (getCounts (todos (deleteTodo i st))) + 1
        = Counts.total (getCounts (todos st)))
  /\
  (~ In i (ids (todos st)) ->
   todos (deleteTodo i st) = todos st
   /\ Counts.total (getCounts (todos (deleteTodo i st)))
      = Counts.total (getCounts (todos st))).
Proof.
  rewrite todos_deleteTodo. split; [| split].
  - split; [reflexivity |]. split; [| split].
    + intros t. rewrite filter_In, negb_true_iff, str_eqb_neq. reflexivity.
    + unfold ids. rewrite in_map_iff. intros (t & Hid & Hin).
      apply filter_In in Hin as [_ H].
      rewrite <- Hid, str_eqb_refl in H. discriminate.
    + cbn [getCounts Counts.total]. apply length_filter_by_id.
  - intros Hnd Hin.
    destruct (filter_splits_unique_id i (todos st) Hnd Hin) as (l1 & t & l2 & E & Ht & Hf).
    exists l1, t, l2. rewrite Hf, E. simpl.
    repeat split; auto. rewrite !length_app. simpl. lia.
  - intros Hout. rewrite filter_absent_id by exact Hout. auto.
Qed.

(** The claim C7 fails on a collection that holds an id twice: Delete
    takes both tasks and the total goes down by 2. *)
Lemma deleteTodo_removes_twins :
  let st := initialState twins in
  next_state (parseStoredTodos (steady_env 0 [])
                (Some (JSON_stringify (todos_value twins))) fresh_world) = twins
  /\ In (lit "x") (ids (todos st))
  /\ todos (deleteTodo (lit "x") st) = []
  /\ Counts.total (getCounts (todos st)) = 2
  /\ Counts.total (getCounts (todos (deleteTodo (lit "x") st))) = 0.
Proof.
  cbv zeta. split; [vm_compute; reflexivity |].
  split; [left; reflexivity | repeat split].
Qed.

(** ** ClearCompleted *)

Lemma filter_partition_length {A} (p : A -> bool) (l : list A) :
  length (List.filter (fun x => negb (p x)) l) + length (List.filter p l) = length l.
Proof.
  induction l as [|x l IH]; [reflexivity |].
  cbn [List.filter]. destruct (p x); cbn [negb length]; lia.
Qed.

Lemma filter_filter_negb {A} (p : A -> bool) (l : list A) :
  List.filter p (List.filter (fun x => negb (p x)) l) = [].
Proof.
  induction l as [|x l IH]; [reflexivity |].
  cbn [List.filter]. destruct (p x) eqn:E; cbn [negb List.filter]; [exact IH |].
  now rewrite E.
Qed.

Lemma clearCompleted_removes_completed st :
  (forall t, In t (todos (clearCompleted st))
             <-> In t (todos st) /\ Todo.completed t = false)
  /\ Counts.completed (getCounts (todos (clearCompleted st))) = 0
  /\ Counts.total (getCounts (todos (clearCompleted st)))
     = Counts.active (getCounts (todos st)).
Proof.
  rewrite todos_clearCompleted. split; [| split].
  - intros t. rewrite filter_In, negb_true_iff. reflexivity.
  - cbn [getCounts Counts.completed]. now rewrite filter_filter_negb.
  - cbn [getCounts Counts.total Counts.active].
    pose proof (filter_partition_length Todo.completed (todos st)). lia.
Qed.

Lemma clearCompleted_target_check (e : jsstring) (ts : list Todo.t) :
  existsb (fun t => is_target (Some e) t && negb (Todo.completed t)) ts = true
  <-> In e (ids (List.filter (fun t => negb (Todo.completed t)) ts)).
Proof.
  rewrite existsb_exists. unfold ids. rewrite in_map_iff. split.
  - intros (t & Hin & Ht). apply andb_true_iff in Ht as [H1 H2].
    simpl in H1. apply str_eqb_eq in H1.
    exists t. split; [exact H1 |]. apply filter_In. auto.
  - intros (t & Hid & Hin). apply filter_In in Hin as [Hin Hc].
    exists t. split; [exact Hin |]. simpl. rewrite Hid, str_eqb_refl, Hc.
    reflexivity.
Qed.

(** With a non-empty edit target, ClearCompleted clears the edit state
    exactly when no task with that id is left. *)
Lemma clearCompleted_edit_state (e : jsstring) (st : AppState) :
  editingId st = Some e -> e <> [] ->
  (In e (ids (todos (clearCompleted st))) ->
   editingId (clearCompleted st) = Some e
   /\ editingTitle (clearCompleted st) = editingTitle st)
  /\
  (~ In e (ids (todos (clearCompleted st))) ->
   editingId (clearCompleted st) = None
   /\ editingTitle (clearCompleted st) = []).
Proof.
  intros He Hne. rewrite todos_clearCompleted.
  unfold clearCompleted. rewrite He.
  replace (truthy (Some e)) with true by (destruct e; [now elim Hne | reflexivity]).
  pose proof (clearCompleted_target_check e (todos st)) as Hx.
  destruct (existsb _ (todos st)); simpl; split; intros H.
  - auto.
  - elim H. now apply Hx.
  - apply Hx in H. discriminate.
  - auto.
Qed.

(** C8 at the failing input: the edit target is the task whose id is the
    empty string; it is completed, so ClearCompleted removes it and no
    task with that id is left, yet the edit target and the edit buffer
    stay as they were: the guard [if (editingId)] takes the empty id for
    no edit at all.  (Delete of the same task does clear the edit.) *)
Theorem clearCompleted_keeps_edit_of_empty_id :
  let st := editing_empty_id in
  let st' := clearCompleted st in
  (let loaded := next_state (parseStoredTodos (steady_env 0 []) (Some stored_empty_id)
                                              fresh_world) in
   exists t0 rest,
     loaded = t0 :: rest
     /\ toggleCompleted [] (startEdit t0 (initialState loaded)) = st)
  /\ todos st' = [task (lit "b") (lit "y") false 2]
  /\ editingId st = Some []
  /\ In [] (ids (todos st))
  /\ ~ In [] (ids (todos st'))
  /\ editingId st' = Some []
  /\ editingTitle st' = lit "x"
  /\ editingId (deleteTodo [] st) = None.
Proof.
  cbv zeta. split.
  { eexists _, _. split; vm_compute; reflexivity. }
  repeat split; try reflexivity.
  - left; reflexivity.
  - intros [H | []]; discriminate.
Qed.

(** ** Operations on an id that no task has *)

Lemma commitEdit_stale (i : jsstring) (st : AppState) (w : World) :
  ~ In i (ids (todos st)) -> editingId st = Some i ->
  validateTitle (editingTitle st) = None ->
  commitEdit st w = (cancelEdit st, w).
Proof.
  intros Hout He Hv. rewrite (commitEdit_accepted st w Hv), He.
  assert (Hm : map (fun t => if is_target (Some i) t
                             then retitle (trim (editingTitle st)) t else t)
                   (todos st) = todos st)
    by (apply (map_absent_id i (retitle (trim (editingTitle st)))); exact Hout).
  unfold cancelEdit, setError, setEditingTitle, setEditingId, setTodos.
  cbn [todos newTitle editingId editingTitle filter error].
  now rewrite Hm.
Qed.

(** C10 (as the code has it). For an id that no task of the collection
    has: Toggle leaves the whole state unchanged; Delete leaves the
    collection unchanged, and the whole state too unless the id is the
    edit target, in which case it cancels the edit; StartEdit, which is
    handed a task and does not look it up, leaves the collection unchanged
    but makes that task's id the edit target and its title the edit
    buffer; CommitEdit whose edit target is that id, the buffer being
    valid, leaves the collection unchanged and clears the edit state.
    None of the four surfaces an error message. *)
Theorem absent_id_operations (i : jsstring) (st : AppState) :
  ~ In i (ids (todos st)) ->
  toggleCompleted i st = st
  /\ (todos (deleteTodo i st) = todos st
      /\ (editingId st <> Some i -> deleteTodo i st = st)
      /\ (editingId st = Some i -> deleteTodo i st = cancelEdit st))
  /\ (forall todo, Todo.id todo = i ->
        todos (startEdit todo st) = todos st
        /\ editingId (startEdit todo st) = Some i
        /\ editingTitle (startEdit todo st) = Todo.title todo
        /\ error (startEdit todo st) = [])
  /\ (forall w, editingId st = Some i ->
        trim (editingTitle st) <> [] -> length (trim (editingTitle st)) <= 120 ->
        commitEdit st w = (cancelEdit st, w)
        /\ todos (cancelEdit st) = todos st
        /\ editingId (cancelEdit st) = None
        /\ editingTitle (cancelEdit st) = []
        /\ error (cancelEdit st) = []).
Proof.
  intros Hout. split; [| split; [| split]].
  - unfold toggleCompleted. apply setTodos_id. now apply map_absent_id.
  - assert (Hs : setTodos (List.filter (fun t => negb (str_eqb (Todo.id t) i))) st = st)
      by (apply setTodos_id; now apply filter_absent_id).
    split; [rewrite todos_deleteTodo; now apply filter_absent_id |].
    unfold deleteTodo. rewrite Hs. split; intros He.
    + destruct (is_editing (editingId st) i) eqn:E; [| reflexivity].
      apply is_editing_true in E. congruence.
    + rewrite He. simpl. rewrite str_eqb_refl. reflexivity.
  - intros todo <-. repeat split.
  - intros w He H1 H2. split.
    + apply (commitEdit_stale (i)); auto. apply validateTitle_accepts; auto.
    + repeat split.
Qed.

(** The claim C10 fails for three of the four operations: with the stale
    edit target [zz], CommitEdit and Delete(zz) clear the edit state, and
    StartEdit of a task that is not in the collection starts an edit. *)
Lemma absent_id_changes_edit_state :
  let st := stale_edit in
  ~ In (lit "zz") (ids (todos st))
  /\ next_state (commitEdit st fresh_world) <> st
  /\ editingId (next_state (commitEdit st fresh_world)) = None
  /\ deleteTodo (lit "zz") st <> st
  /\ ~ In (lit "q") (ids (todos st))
  /\ startEdit (task (lit "q") (lit "t") false 5) st <> st.
Proof.
  cbv zeta. repeat split; try discriminate.
  intros [H | []]; discriminate.
  intros [H | []]; discriminate.
Qed.

(** ** Rehydration *)

Lemma conforming_task_record (e : json) : conforming e = true <-> task_record e.
Proof.
  unfold conforming, task_record. split.
  - intros H. repeat (apply andb_true_iff in H as [H ?]).
    destruct e as [| b | n | s | l | m]; simpl in *; try discriminate.
    destruct (lookup_last (lit "id") m) as [[| | | i | |]|] eqn:Ei;
      try discriminate.
    destruct (lookup_last (lit "title") m) as [[| | | t | |]|] eqn:Et;
      try discriminate.
    destruct (lookup_last (lit "completed") m) as [[| c | | | |]|] eqn:Ec;
      try discriminate.
    now exists m, i, t, c.
  - intros (m & i & t & c & -> & Hi & Ht & Hc). simpl.
    now rewrite Hi, Ht, Hc.
Qed.

Lemma rehydrated_weaken env w1 w2 w3 w4 e t :
  clock_reads w1 <= clock_reads w2 -> clock_reads w3 <= clock_reads w4 ->
  rehydrated env w2 w3 e t -> rehydrated env w1 w4 e t.
Proof.
  intros H12 H34 (Hi & Ht & Hc & Hk). repeat split; auto.
  destruct Hk as [Hk | (Hn & k & Hk & E)]; [now left | right].
  split; [exact Hn |]. exists k. split; [lia | exact E].
Qed.

Lemma toTodo_rehydrated env e w :
  conforming e = true ->
  rehydrated env w (next_world (toTodo env e w)) e (next_state (toTodo env e w))
  /\ clock_reads w <= clock_reads (next_world (toTodo env e w))
  /\ random_reads (next_world (toTodo env e w)) = random_reads w
  /\ timeouts (next_world (toTodo env e w)) = timeouts w.
Proof.
  intros H. apply conforming_task_record in H as (m & i & t & c & -> & Hi & Ht & Hc).
  unfold toTodo, rehydrated, next_world, next_state, bind, ret. simpl.
  rewrite Hi, Ht, Hc.
  destruct (lookup_last (lit "createdAt") m) as [[| b | n | s | l | m']|] eqn:E;
    simpl; repeat split; auto;
    try (left; eexists; split; reflexivity);
    right; (split; [discriminate | exists (clock_reads w); split; [lia | reflexivity]]).
Qed.

Lemma mapM_cons {A B} (f : A -> M B) (x : A) (r : list A) (w : World) :
  mapM f (x :: r) w
  = (let (y, w1) := f x w in
     let (ys, w2) := mapM f r w1 in (y :: ys, w2)).
Proof.
  cbn [mapM]. unfold bind, ret. destruct (f x w) as [y w1].
  destruct (mapM f r w1); reflexivity.
Qed.

Lemma mapM_toTodo_rehydrated env (l : list json) :
  Forall (fun e => conforming e = true) l ->
  forall w,
    Forall2 (rehydrated env w (next_world (mapM (toTodo env) l w)))
            l (next_state (mapM (toTodo env) l w))
    /\ clock_reads w <= clock_reads (next_world (mapM (toTodo env) l w))
    /\ random_reads (next_world (mapM (toTodo env) l w)) = random_reads w
    /\ timeouts (next_world (mapM (toTodo env) l w)) = timeouts w.
Proof.
  induction 1 as [|e l He Hl IH]; intros w.
  - simpl. repeat split; auto.
  - rewrite mapM_cons.
    destruct (toTodo_rehydrated env e w He) as (R1 & C1 & N1 & T1).
    destruct (toTodo env e w) as [t w1] eqn:E1.
    unfold next_world, next_state in *. simpl in R1, C1, N1, T1.
    destruct (IH w1) as (R2 & C2 & N2 & T2).
    destruct (mapM (toTodo env) l w1) as [ts w2] eqn:E2.
    simpl in R2, C2, N2, T2. simpl.
    repeat split; try congruence; try lia.
    constructor.
    + eapply rehydrated_weaken; [| | exact R1]; lia.
    + eapply Forall2_impl; [| exact R2].
      intros a b Hab. eapply rehydrated_weaken; [| | exact Hab]; lia.
Qed.

Lemma JSON_parse_empty : JSON_parse [] = None.
Proof. reflexivity. Qed.

Lemma parseStoredTodos_array env text elems w :
  JSON_parse text = Some (JArr elems) ->
  parseStoredTodos env (Some text) w
  = mapM (toTodo env) (List.filter conforming elems) w.
Proof.
  intros H. unfold parseStoredTodos.
  destruct text as [|c r]; [rewrite JSON_parse_empty in H; discriminate |].
  simpl truthy. cbn [negb]. now rewrite H.
Qed.

Lemma filter_Forall {A} (p : A -> bool) (l : list A) :
  Forall (fun x => p x = true) (List.filter p l).
Proof. apply Forall_forall. intros x Hx. now apply filter_In in Hx. Qed.

(** C4. [parseStoredTodos] is a total function of the stored value: it
    always returns a list.  A missing value, the empty text, a text that
    [JSON.parse] rejects and a text that parses to something other than an
    array all give the empty collection without consulting the clock.  A
    text that parses to an array gives, in order, one task for each
    element that is an object with a string id, a string title and a
    boolean completed, and nothing for the other elements; each task has
    the id, title and completed flag of its element, and as createdAt the
    number stored in the element or, if the element has no numeric
    createdAt, a reading of the clock taken during the load. *)
Theorem parseStoredTodos_tolerant (env : Env) (value : option jsstring) (w : World) :
  let r := parseStoredTodos env value w in
  (value = None \/ value = Some [] -> r = ([], w))
  /\ (forall text, value = Some text -> JSON_parse text = None -> r = ([], w))
  /\ (forall text v, value = Some text -> JSON_parse text = Some v ->
        (forall elems, v <> JArr elems) -> r = ([], w))
  /\ (forall text elems, value = Some text -> JSON_parse text = Some (JArr elems) ->
        (forall e, In e (List.filter conforming elems) <-> In e elems /\ task_record e)
        /\ Forall2 (rehydrated env w (next_world r))
                   (List.filter conforming elems) (next_state r)
        /\ random_reads (next_world r) = random_reads w
        /\ timeouts (next_world r) = timeouts w).
Proof.
  cbv zeta. split; [| split; [| split]].
  - intros [-> | ->]; reflexivity.
  - intros text -> H. unfold parseStoredTodos.
    destruct (negb (truthy (Some text))); [reflexivity | now rewrite H].
  - intros text v -> H Hv. unfold parseStoredTodos.
    destruct (negb (truthy (Some text))); [reflexivity |]. rewrite H.
    destruct v; try reflexivity. now elim (Hv elems).
  - intros text elems -> H. rewrite (parseStoredTodos_array env text elems w H).
    split.
    + intros e. rewrite filter_In, conforming_task_record. reflexivity.
    + destruct (mapM_toTodo_rehydrated env (List.filter conforming elems)
                  (filter_Forall conforming elems) w) as (R & _ & N & T).
      auto.
Qed.

(** ** Ids *)

Lemma ids_map_same (g : Todo.t -> Todo.t) (ts : list Todo.t) :
  (forall t, Todo.id (g t) = Todo.id t) -> ids (map g ts) = ids ts.
Proof.
  intros H. unfold ids. rewrite map_map. apply map_ext. exact H.
Qed.

Lemma NoDup_ids_filter (p : Todo.t -> bool) (ts : list Todo.t) :
  NoDup (ids ts) -> NoDup (ids (List.filter p ts)).
Proof.
  induction ts as [|t ts IH]; simpl; intros H; [constructor |].
  apply NoDup_cons_iff in H as [Hnot Hnd].
  destruct (p t); simpl; [| now apply IH].
  constructor; [| now apply IH].
  intros Hin. apply Hnot. unfold ids in *.
  apply in_map_iff in Hin as (u & Hu & Hin). apply filter_In in Hin as [Hin _].
  apply in_map_iff. eauto.
Qed.

Lemma ids_rehydrated env w w' (l : list json) (ts : list Todo.t) :
  Forall2 (rehydrated env w w') l ts ->
  ids ts = map (fun e => string_of (get_prop e (lit "id"))) l.
Proof.
  induction 1 as [|e t l ts (Hi & _) _ IH]; simpl; [reflexivity |].
  rewrite Hi. simpl. now rewrite IH.
Qed.

(** C5 (as the code has it). Nothing checks ids for collisions, and the
    operations keep distinct ids distinct as far as they do not add any:
    Toggle, Delete, CommitEdit and ClearCompleted leave pairwise-distinct
    ids pairwise distinct, and so does Create whenever the id it generates
    is not the id of an existing task.  Rehydration keeps the ids of the
    stored elements it accepts, in order, so the loaded collection has
    pairwise-distinct ids exactly when those elements have. *)
Theorem distinct_ids_preserved (env : Env) (st : AppState) :
  (NoDup (ids (todos st)) ->
   (forall i, NoDup (ids (todos (toggleCompleted i st))))
   /\ (forall i, NoDup (ids (todos (deleteTodo i st))))
   /\ (forall w, NoDup (ids (todos (next_state (commitEdit st w)))))
   /\ NoDup (ids (todos (clearCompleted st)))
   /\ (forall w, ~ In (next_state (generateId env w)) (ids (todos st)) ->
         NoDup (ids (todos (next_state (addTodo env st w))))))
  /\
  (forall text elems w,
     JSON_parse text = Some (JArr elems) ->
     let loaded := next_state (parseStoredTodos env (Some text) w) in
     ids loaded = map (fun e => string_of (get_prop e (lit "id")))
                      (List.filter conforming elems)
     /\ (NoDup (ids loaded)
         <-> NoDup (map (fun e => string_of (get_prop e (lit "id")))
                        (List.filter conforming elems)))).
Proof.
  split.
  - intros Hnd. split; [| split; [| split; [| split]]].
    + intros i. unfold toggleCompleted. simpl.
      rewrite ids_map_same; [exact Hnd |]. intros t.
      destruct (str_eqb (Todo.id t) i); reflexivity.
    + intros i. rewrite todos_deleteTodo. now apply NoDup_ids_filter.
    + intros w. unfold commitEdit.
      destruct (truthy (validateTitle (editingTitle st))).
      * destruct (validateTitle (editingTitle st)); exact Hnd.
      * simpl. rewrite ids_map_same; [exact Hnd |]. intros t.
        destruct (is_target (editingId st) t); reflexivity.
    + rewrite todos_clearCompleted. now apply NoDup_ids_filter.
    + intros w Hfresh. unfold addTodo.
      destruct (truthy (validateTitle (newTitle st))).
      * destruct (validateTitle (newTitle st)); exact Hnd.
      * unfold next_state in *. unfold bind at 1.
        destruct (generateId env w) as [i w1]. simpl in Hfresh.
        unfold bind, ret. simpl. unfold ids. rewrite map_app. simpl.
        apply NoDup_app; repeat split.
        -- exact Hnd.
        -- constructor; [intros [] | constructor].
        -- intros x Hx [<- | []]. now apply Hfresh.
  - intros text elems w H. cbv zeta.
    rewrite (parseStoredTodos_array env text elems w H).
    destruct (mapM_toTodo_rehydrated env (List.filter conforming elems)
                (filter_Forall conforming elems) w) as (R & _).
    rewrite (ids_rehydrated _ _ _ _ _ R). split; reflexivity.
Qed.

(** The claim C5 fails on both counts: a stored list that holds an id
    twice is loaded as it is, and two Creates that read the same clock and
    the same random number produce the same id. *)
Lemma duplicate_ids_arise :
  (let stored := JSON_stringify (todos_value twins) in
   ids (next_state (parseStoredTodos (steady_env 5 []) (Some stored) fresh_world))
   = [lit "x"; lit "x"])
  /\
  (let env := steady_env 1000 (lit "0.abc") in
   let r1 := addTodo env (setNewTitle (lit "one") (initialState [])) fresh_world in
   let r2 := addTodo env (setNewTitle (lit "two") (next_state r1)) (next_world r1) in
   NoDup (ids (todos (next_state r1)))
   /\ In (next_state (generateId env (next_world r1))) (ids (todos (next_state r1)))
   /\ ids (todos (next_state r2)) = [lit "rs_abc"; lit "rs_abc"]
   /\ ~ NoDup (ids (todos (next_state r2)))).
Proof.
  split; [vm_compute; reflexivity |].
  cbv zeta. split; [| split; [| split]].
  - vm_compute. constructor; [intros [] | constructor].
  - vm_compute. left; reflexivity.
  - vm_compute. reflexivity.
  - intros H. vm_compute in H. apply NoDup_cons_iff in H as [H _].
    apply H. left; reflexivity.
Qed.

(** ** [JSON.parse] reads back what [JSON.stringify] wrote *)

Ltac split_tests :=
  repeat match goal with
         | |- context [N.eqb ?a ?b] => destruct (N.eqb_spec a b)
         | |- context [N.leb ?a ?b] => destruct (N.leb_spec a b)
         | |- context [N.ltb ?a ?b] => destruct (N.ltb_spec a b)
         end.

Lemma hex_value_digit (d : N) : (d < 16)%N -> hex_value (hex_digit d) = Some d.
Proof.
  intros H. unfold hex_value, hex_digit.
  destruct (N.ltb_spec d 10); split_tests; cbn [andb]; try lia; f_equal; lia.
Qed.

Lemma hex4_digits (c : code_unit) :
  (c < 65536)%N ->
  hex4 (hex_digit (c / 4096 mod 16)) (hex_digit (c / 256 mod 16))
       (hex_digit (c / 16 mod 16)) (hex_digit (c mod 16)) = Some c.
Proof.
  intros H. unfold hex4.
  rewrite !hex_value_digit by (apply N.mod_lt; discriminate).
  f_equal.
  replace (c / 256)%N with (c / 16 / 16)%N
    by (rewrite N.Div0.div_div; reflexivity).
  replace (c / 4096)%N with (c / 16 / 16 / 16)%N
    by (rewrite !N.Div0.div_div; reflexivity).
  pose proof (N.div_mod c 16) as E1.
  pose proof (N.div_mod (c / 16) 16) as E2.
  pose proof (N.div_mod (c / 16 / 16) 16) as E3.
  specialize (E1 ltac:(discriminate)).
  specialize (E2 ltac:(discriminate)).
  specialize (E3 ltac:(discriminate)).
  set (a := (c / 16)%N) in *. set (b := (a / 16)%N) in *.
  set (d := (b / 16)%N) in *.
  clearbody d. clearbody b. clearbody a.
  generalize dependent (c mod 16)%N. generalize dependent (a mod 16)%N.
  generalize dependent (b mod 16)%N. intros m2 E3 m1 E2 m0 E1.
  assert (Hd : (d < 16)%N) by lia.
  rewrite (N.mod_small d 16) by exact Hd.
  lia.
Qed.

Lemma parse_chars_escape (c : code_unit) (tail : jsstring) :
  (c < 65536)%N ->
  parse_chars (unicode_escape c ++ tail) = push c (parse_chars tail).
Proof.
  intros H. unfold unicode_escape. cbn [app parse_chars N.eqb Pos.eqb].
  now rewrite hex4_digits.
Qed.

Lemma parse_chars_plain (c : code_unit) (tail : jsstring) :
  c <> 34%N -> c <> 92%N -> (32 <= c)%N ->
  parse_chars (c :: tail) = push c (parse_chars tail).
Proof.
  intros H1 H2 H3. cbn [parse_chars].
  split_tests; try lia; reflexivity.
Qed.

Lemma parse_chars_quote_unit (c : code_unit) (tail : jsstring) :
  is_high_surrogate c = false -> is_low_surrogate c = false ->
  parse_chars (quote_unit c ++ tail) = push c (parse_chars tail).
Proof.
  intros _ _. unfold quote_unit.
  destruct (N.eqb_spec c 8) as [-> |]; [reflexivity |].
  destruct (N.eqb_spec c 9) as [-> |]; [reflexivity |].
  destruct (N.eqb_spec c 10) as [-> |]; [reflexivity |].
  destruct (N.eqb_spec c 12) as [-> |]; [reflexivity |].
  destruct (N.eqb_spec c 13) as [-> |]; [reflexivity |].
  destruct (N.eqb_spec c 34) as [-> |]; [reflexivity |].
  destruct (N.eqb_spec c 92) as [-> |]; [reflexivity |].
  destruct (N.ltb_spec c 32).
  - apply parse_chars_escape. lia.
  - now apply parse_chars_plain.
Qed.

Lemma surrogate_bounds (c : code_unit) :
  is_high_surrogate c = true \/ is_low_surrogate c = true ->
  c <> 34%N /\ c <> 92%N /\ (32 <= c)%N /\ (c < 65536)%N.
Proof.
  unfold is_high_surrogate, is_low_surrogate.
  intros [H | H]; apply andb_true_iff in H as [H1 H2];
    apply N.leb_le in H1, H2; repeat split; lia.
Qed.

(** The characters [quote_units] writes, followed by the closing quote,
    are read back as the string. *)
Lemma parse_chars_quote_units (s rest : jsstring) :
  parse_chars (quote_units s ++ 34%N :: rest) = Some (s, rest).
Proof.
  remember (length s) as n eqn:Hn.
  assert (Hle : length s <= n) by lia. clear Hn.
  revert s Hle. induction n as [|n IH]; intros s Hle.
  - destruct s; [reflexivity | simpl in Hle; lia].
  - destruct s as [|c r]; [reflexivity |].
    simpl in Hle. cbn [quote_units].
    destruct (is_high_surrogate c) eqn:Hh.
    + destruct (surrogate_bounds c (or_introl Hh)) as (B1 & B2 & B3 & B4).
      destruct r as [|d r'].
      * rewrite parse_chars_escape by exact B4. reflexivity.
      * destruct (is_low_surrogate d) eqn:Hl.
        -- destruct (surrogate_bounds d (or_intror Hl)) as (D1 & D2 & D3 & D4).
           cbn [app].
           rewrite parse_chars_plain by assumption.
           rewrite parse_chars_plain by assumption.
           rewrite IH by (simpl in Hle; lia). reflexivity.
        -- rewrite <- app_assoc.
           rewrite parse_chars_escape by exact B4.
           rewrite IH by lia. reflexivity.
    + destruct (is_low_surrogate c) eqn:Hl.
      * destruct (surrogate_bounds c (or_intror Hl)) as (B1 & B2 & B3 & B4).
        rewrite <- app_assoc.
        rewrite parse_chars_escape by exact B4.
        rewrite IH by lia. reflexivity.
      * rewrite <- app_assoc.
        rewrite parse_chars_quote_unit by assumption.
        rewrite IH by lia. reflexivity.
Qed.

(** *** Numbers *)

Lemma number_to_string_int (z : Z) :
  number_to_string (inject_Z z)
  = (if (z <? 0)%Z then lit "-" else [])
      ++ uint_chars (N.to_uint (Z.to_N (Z.abs z))).
Proof.
  unfold number_to_string, inject_Z. cbn [Qnum Qden].
  rewrite Z.div_1_r, Z.mod_1_r. cbn [Z.eqb]. now rewrite app_nil_r.
Qed.

Lemma span_digits_uint_chars (d : Decimal.uint) (c : code_unit) (rest : jsstring) :
  is_digit c = false ->
  span_digits (uint_chars d ++ c :: rest) = (d, c :: rest).
Proof.
  intros Hc. induction d as [| d IH | d IH | d IH | d IH | d IH | d IH
                             | d IH | d IH | d IH | d IH];
    [simpl; now rewrite Hc | ..];
    cbn [uint_chars app span_digits]; rewrite IH; reflexivity.
Qed.

Lemma to_uint_nonnil (n : N) : N.to_uint n <> Decimal.Nil.
Proof.
  destruct n as [|p]; [discriminate |]. apply DecimalPos.Unsigned.to_uint_nonnil.
Qed.

(** The decimal digits of a natural number have no leading zero, apart
    from the single digit of zero. *)
Lemma to_uint_no_leading_zero (n : N) (r : Decimal.uint) :
  N.to_uint n = Decimal.D0 r -> r = Decimal.Nil.
Proof.
  destruct n as [|p]; [now intros [= <-] |].
  cbn [N.to_uint]. intros E.
  pose proof (DecimalPos.Unsigned.to_of (Pos.to_uint p)) as H.
  rewrite DecimalPos.Unsigned.of_to in H. cbn [N.to_uint] in H.
  rewrite E, DecimalFacts.unorm_D0 in H.
  unfold Decimal.unorm in H.
  destruct (Decimal.nzhead r) eqn:Hz.
  - now injection H as ->.
  - elim (DecimalFacts.nzhead_nonzero r r). congruence.
  - discriminate. - discriminate. - discriminate. - discriminate.
  - discriminate. - discriminate. - discriminate. - discriminate.
  - discriminate.
Qed.

Lemma uint_chars_head (d : Decimal.uint) :
  d <> Decimal.Nil ->
  exists c r, uint_chars d = c :: r /\ is_digit c = true.
Proof.
  destruct d; [congruence | ..]; intros _; eexists _, _; split; reflexivity.
Qed.

Lemma number_of_literal_int (neg : bool) (n : N) :
  number_of_literal neg (N.to_uint n) Decimal.Nil 0
  = inject_Z (if neg then - Z.of_N n else Z.of_N n).
Proof.
  unfold number_of_literal. rewrite DecimalFacts.app_nil_r.
  unfold Z.of_uint. fold (N.of_uint (N.to_uint n)).
  rewrite DecimalN.Unsigned.of_to.
  cbn [Decimal.nb_digits Z.of_nat Z.sub Z.opp Z.leb Z.compare Z.pow Z.pow_pos].
  now rewrite Z.mul_1_r.
Qed.

(** A number literal that stands before a closing brace. *)
Lemma parse_unsigned_int (neg : bool) (n : N) (rest : jsstring) :
  parse_unsigned neg (uint_chars (N.to_uint n) ++ 125%N :: rest)
  = Some (inject_Z (if neg then - Z.of_N n else Z.of_N n), 125%N :: rest).
Proof.
  unfold parse_unsigned.
  rewrite span_digits_uint_chars by reflexivity.
  rewrite <- number_of_literal_int.
  pose proof (to_uint_nonnil n) as Hnn.
  pose proof (to_uint_no_leading_zero n) as Hlz.
  destruct (N.to_uint n) as [| r | r | r | r | r | r | r | r | r | r];
    try congruence; try reflexivity.
  rewrite (Hlz r eq_refl). reflexivity.
Qed.

Lemma parse_number_int (z : Z) (rest : jsstring) :
  parse_number (number_to_string (inject_Z z) ++ 125%N :: rest)
  = Some (inject_Z z, 125%N :: rest).
Proof.
  rewrite number_to_string_int.
  set (n := Z.to_N (Z.abs z)).
  destruct (Z.ltb_spec z 0) as [Hneg | Hpos].
  - change (parse_unsigned true (uint_chars (N.to_uint n) ++ 125%N :: rest)
            = Some (inject_Z z, 125%N :: rest)).
    rewrite parse_unsigned_int. unfold n.
    rewrite Z2N.id by lia. do 3 f_equal. lia.
  - cbn [app].
    destruct (uint_chars_head (N.to_uint n) (to_uint_nonnil n)) as (c & r & Hc & Hd).
    assert (Hc45 : (c =? 45)%N = false).
    { unfold is_digit in Hd. apply andb_true_iff in Hd as [H1 H2].
      apply N.leb_le in H1, H2. apply N.eqb_neq. lia. }
    pose proof (parse_unsigned_int false n rest) as Hu.
    rewrite Hc in Hu |- *. cbn [app] in Hu |- *.
    unfold parse_number. rewrite Hc45, Hu. unfold n.
    rewrite Z2N.id by lia. do 3 f_equal. lia.
Qed.

(** *** Values *)

Lemma parse_value_quote (f : nat) (tail : jsstring) :
  parse_value (S f) (34%N :: tail)
  = match parse_chars tail with
    | Some (str, r') => Ok (JStr str) r'
    | None => SyntaxError
    end.
Proof. reflexivity. Qed.

Lemma parse_value_string (f : nat) (s rest : jsstring) :
  parse_value (S f) (quote s ++ rest) = Ok (JStr s) rest.
Proof.
  unfold quote. cbn [app]. rewrite <- app_assoc. cbn [app].
  now rewrite parse_value_quote, parse_chars_quote_units.
Qed.

Lemma parse_value_bool (f : nat) (b : bool) (rest : jsstring) :
  parse_value (S f) (JSON_stringify (JBool b) ++ rest) = Ok (JBool b) rest.
Proof. destruct b; reflexivity. Qed.

Lemma parse_value_number (f : nat) (c : code_unit) (r : jsstring) :
  c = 45%N \/ is_digit c = true ->
  parse_value (S f) (c :: r)
  = match parse_number (c :: r) with
    | Some (n, r') => Ok (JNum n) r'
    | None => SyntaxError
    end.
Proof.
  intros H.
  assert (B : c = 45%N \/ (48 <= c /\ c <= 57)%N).
  { destruct H as [H | H]; [now left | right].
    unfold is_digit in H. apply andb_true_iff in H as [H1 H2].
    apply N.leb_le in H1, H2. auto. }
  assert (Hd : ((c =? 45) || is_digit c)%N = true).
  { destruct H as [-> | ->]; [reflexivity | apply orb_true_r]. }
  cbn [parse_value skip_ws].
  assert (Hs : is_json_space c = false).
  { unfold is_json_space. split_tests; try reflexivity; lia. }
  rewrite Hs.
  replace (c =? 123)%N with false by (symmetry; apply N.eqb_neq; lia).
  replace (c =? 91)%N with false by (symmetry; apply N.eqb_neq; lia).
  replace (c =? 34)%N with false by (symmetry; apply N.eqb_neq; lia).
  replace (c =? 116)%N with false by (symmetry; apply N.eqb_neq; lia).
  replace (c =? 102)%N with false by (symmetry; apply N.eqb_neq; lia).
  replace (c =? 110)%N with false by (symmetry; apply N.eqb_neq; lia).
  now rewrite Hd.
Qed.

Lemma parse_value_int (f : nat) (z : Z) (rest : jsstring) :
  parse_value (S f) (number_to_string (inject_Z z) ++ 125%N :: rest)
  = Ok (JNum (inject_Z z)) (125%N :: rest).
Proof.
  pose proof (parse_number_int z rest) as Hp.
  assert (Hhead : exists c r,
             number_to_string (inject_Z z) ++ 125%N :: rest = c :: r
             /\ (c = 45%N \/ is_digit c = true)).
  { rewrite number_to_string_int.
    destruct (z <? 0)%Z.
    - eexists _, _. split; [reflexivity | now left].
    - destruct (uint_chars_head _ (to_uint_nonnil (Z.to_N (Z.abs z))))
        as (c & r & Hc & Hd).
      rewrite Hc. eexists _, _. split; [reflexivity | now right]. }
  destruct Hhead as (c & r & E & Hc). rewrite E in Hp |- *.
  now rewrite (parse_value_number f c r Hc), Hp.
Qed.

Lemma parse_members_key (f : nat) (k tail : jsstring) (acc : list (jsstring * json)) :
  parse_members (S f) (quote k ++ 58%N :: tail) acc
  = match parse_value f tail with
    | Ok v r3 =>
        match skip_ws r3 with
        | [] => SyntaxError
        | c' :: r4 =>
            if (c' =? 44)%N then parse_members f r4 (acc ++ [(k, v)])
            else if (c' =? 125)%N then Ok (JObj (acc ++ [(k, v)])) r4
                 else SyntaxError
        end
    | SyntaxError => SyntaxError
    | OutOfFuel => OutOfFuel
    end.
Proof.
  unfold quote. cbn [app]. rewrite <- app_assoc. cbn [app].
  transitivity
    (match parse_chars (quote_units k ++ 34%N :: 58%N :: tail) with
     | None => SyntaxError
     | Some (k, r1) =>
         match skip_ws r1 with
         | [] => SyntaxError
         | c :: r2 =>
             if (c =? 58)%N then
               match parse_value f r2 with
               | Ok v r3 =>
                   match skip_ws r3 with
                   | [] => SyntaxError
                   | c' :: r4 =>
                       if (c' =? 44)%N then parse_members f r4 (acc ++ [(k, v)])
                       else if (c' =? 125)%N then Ok (JObj (acc ++ [(k, v)])) r4
                            else SyntaxError
                   end
               | SyntaxError => SyntaxError
               | OutOfFuel => OutOfFuel
               end
             else SyntaxError
         end
     end); [reflexivity |].
  rewrite parse_chars_quote_units. reflexivity.
Qed.

Lemma parse_members_more (f : nat) (k tail r4 : jsstring) (v : json)
      (acc : list (jsstring * json)) :
  parse_value f tail = Ok v (44%N :: r4) ->
  parse_members (S f) (quote k ++ 58%N :: tail) acc
  = parse_members f r4 (acc ++ [(k, v)]).
Proof. intros H. now rewrite parse_members_key, H. Qed.

Lemma parse_members_last (f : nat) (k tail r4 : jsstring) (v : json)
      (acc : list (jsstring * json)) :
  parse_value f tail = Ok v (125%N :: r4) ->
  parse_members (S f) (quote k ++ 58%N :: tail) acc
  = Ok (JObj (acc ++ [(k, v)])) r4.
Proof. intros H. now rewrite parse_members_key, H. Qed.

Lemma JSON_stringify_array (l : list json) :
  JSON_stringify (JArr l) = 91%N :: items_text l ++ [93%N].
Proof.
  cbn [JSON_stringify]. change (lit "[") with [91%N]. change (lit "]") with [93%N].
  reflexivity.
Qed.

Lemma JSON_stringify_todo (t : Todo.t) :
  JSON_stringify (todo_value t)
  = 123%N :: quote (lit "id") ++ 58%N :: quote (Todo.id t)
      ++ 44%N :: quote (lit "title") ++ 58%N :: quote (Todo.title t)
      ++ 44%N :: quote (lit "completed") ++ 58%N :: JSON_stringify (JBool (Todo.completed t))
      ++ 44%N :: quote (lit "createdAt") ++ 58%N :: number_to_string (Todo.createdAt t)
      ++ [125%N].
Proof.
  unfold todo_value. cbn [JSON_stringify].
  change (lit "{") with [123%N]. change (lit "}") with [125%N].
  change (lit ":") with [58%N]. change (lit ",") with [44%N].
  repeat (progress (cbn [app]; rewrite <- ?app_assoc, ?app_nil_r)).
  reflexivity.
Qed.

Lemma parse_value_object_start (f : nat) (tail : jsstring) :
  parse_value (S f) (123%N :: 34%N :: tail) = parse_members f (34%N :: tail) [].
Proof. reflexivity. Qed.

(** The text of a task with an integral [createdAt] is read back as the
    object it was written from. *)
Lemma parse_value_todo (f : nat) (t : Todo.t) (rest : jsstring) :
  integral t ->
  parse_value (6 + f) (JSON_stringify (todo_value t) ++ rest)
  = Ok (todo_value t) rest.
Proof.
  intros [z Hz]. rewrite JSON_stringify_todo, Hz.
  repeat (progress (cbn [app]; rewrite <- ?app_assoc)).
  change (6 + f) with (S (S (S (S (S (S f)))))).
  unfold quote at 1. cbn [app]. rewrite parse_value_object_start.
  change (34%N :: (quote_units (lit "id") ++ [34%N]) ++ ?x)
    with (quote (lit "id") ++ x).
  rewrite (parse_members_more _ _ _ _ (JStr (Todo.id t)))
    by apply parse_value_string.
  rewrite (parse_members_more _ _ _ _ (JStr (Todo.title t)))
    by apply parse_value_string.
  rewrite (parse_members_more _ _ _ _ (JBool (Todo.completed t)))
    by apply parse_value_bool.
  rewrite (parse_members_last _ _ _ _ (JNum (inject_Z z)))
    by apply parse_value_int.
  unfold todo_value. rewrite Hz. reflexivity.
Qed.

(** *** Arrays of tasks *)

Lemma parse_elements_more (f : nat) (s r : jsstring) (v : json) (acc : list json) :
  parse_value f s = Ok v (44%N :: r) ->
  parse_elements (S f) s acc = parse_elements f r (acc ++ [v]).
Proof. intros H. cbn [parse_elements]. now rewrite H. Qed.

Lemma parse_elements_last (f : nat) (s r : jsstring) (v : json) (acc : list json) :
  parse_value f s = Ok v (93%N :: r) ->
  parse_elements (S f) s acc = Ok (JArr (acc ++ [v])) r.
Proof. intros H. cbn [parse_elements]. now rewrite H. Qed.

Lemma parse_elements_todos (ts : list Todo.t) :
  forall (t : Todo.t) (f : nat) (acc : list json) (rest : jsstring),
    Forall integral (t :: ts) ->
    parse_elements (7 + length ts + f)
                   (items_text (map todo_value (t :: ts)) ++ 93%N :: rest) acc
    = Ok (JArr (acc ++ map todo_value (t :: ts))) rest.
Proof.
  induction ts as [|t' ts IH]; intros t f acc rest Hall.
  - apply Forall_inv in Hall.
    cbn [map items_text length]. rewrite app_nil_r.
    change (7 + 0 + f) with (S (6 + f)).
    apply parse_elements_last. now apply parse_value_todo.
  - pose proof (Forall_inv Hall) as Ht. apply Forall_inv_tail in Hall.
    change (map todo_value (t :: t' :: ts))
      with (todo_value t :: map todo_value (t' :: ts)).
    change (items_text (todo_value t :: map todo_value (t' :: ts)))
      with (JSON_stringify (todo_value t)
              ++ 44%N :: items_text (map todo_value (t' :: ts))).
    rewrite <- app_assoc. cbn [app length].
    change (7 + S (length ts) + f) with (S (6 + (S (length ts) + f))).
    rewrite (parse_elements_more _ _ _ (todo_value t))
      by (now apply parse_value_todo).
    replace (6 + (S (length ts) + f)) with (7 + length ts + f) by lia.
    rewrite IH by exact Hall.
    now rewrite <- app_assoc.
Qed.

Lemma JSON_stringify_todo_length (t : Todo.t) :
  2 <= length (JSON_stringify (todo_value t)).
Proof.
  rewrite JSON_stringify_todo. unfold quote at 1. cbn [app length]. lia.
Qed.

Lemma items_text_todos_length (ts : list Todo.t) :
  2 * length ts <= length (items_text (map todo_value ts)).
Proof.
  induction ts as [|t ts IH]; [simpl; lia |].
  cbn [map items_text]. rewrite length_app.
  pose proof (JSON_stringify_todo_length t).
  destruct ts as [|t' ts]; [simpl; lia |].
  change (map todo_value (t' :: ts)) with (todo_value t' :: map todo_value ts) in *.
  cbv iota. rewrite length_app. cbn [length] in *. lia.
Qed.

Lemma parse_value_array_start (f : nat) (tail : jsstring) :
  parse_value (S f) (91%N :: 123%N :: tail) = parse_elements f (123%N :: tail) [].
Proof. reflexivity. Qed.

(** [JSON.parse] gives back the array of objects that [JSON.stringify]
    wrote for a collection whose createdAt values are integers. *)
Lemma JSON_parse_stringify_todos (ts : list Todo.t) :
  Forall integral ts ->
  JSON_parse (JSON_stringify (todos_value ts)) = Some (todos_value ts).
Proof.
  intros Hall. unfold todos_value. rewrite JSON_stringify_array.
  destruct ts as [|t ts]; [reflexivity |].
  unfold JSON_parse.
  pose proof (items_text_todos_length (t :: ts)) as Hlen.
  pose proof (parse_elements_todos ts t) as Hp.
  remember (items_text (map todo_value (t :: ts))) as body eqn:Hbody.
  assert (Hstart : exists tail, body = 123%N :: tail).
  { rewrite Hbody. cbn [map items_text]. rewrite JSON_stringify_todo.
    cbn [app]. eauto. }
  destruct Hstart as [tail Htail].
  cbn [length] in *. rewrite length_app. cbn [length].
  set (F := 2 * S (length body + 1)).
  assert (HF : F = 7 + length ts + (F - 7 - length ts)) by (unfold F; lia).
  rewrite Htail. cbn [app]. rewrite parse_value_array_start.
  rewrite HF.
  change (123%N :: tail ++ [93%N]) with ((123%N :: tail) ++ [93%N]).
  rewrite <- Htail, (Hp _ [] [] Hall). reflexivity.
Qed.

Lemma conforming_todo_value (t : Todo.t) : conforming (todo_value t) = true.
Proof. reflexivity. Qed.

Lemma filter_conforming_todos (ts : list Todo.t) :
  List.filter conforming (map todo_value ts) = map todo_value ts.
Proof.
  induction ts as [|t ts IH]; [reflexivity |].
  cbn [map List.filter]. rewrite conforming_todo_value. now rewrite IH.
Qed.

Lemma toTodo_todo_value (env : Env) (t : Todo.t) (w : World) :
  toTodo env (todo_value t) w = (t, w).
Proof. destruct t; reflexivity. Qed.

Lemma mapM_toTodo_todos (env : Env) (ts : list Todo.t) (w : World) :
  mapM (toTodo env) (map todo_value ts) w = (ts, w).
Proof.
  induction ts as [|t ts IH]; [reflexivity |].
  cbn [map]. now rewrite mapM_cons, toTodo_todo_value, IH.
Qed.

Lemma parseStoredTodos_stringify (env : Env) (ts : list Todo.t) (w : World) :
  Forall integral ts ->
  parseStoredTodos env (Some (JSON_stringify (todos_value ts))) w = (ts, w).
Proof.
  intros Hall.
  rewrite (parseStoredTodos_array env _ (map todo_value ts) w)
    by (now apply JSON_parse_stringify_todos).
  now rewrite filter_conforming_todos, mapM_toTodo_todos.
Qed.

(** ** Persistence *)

Lemma integral_flip t : integral t -> integral (flip t).
Proof. intros [z Hz]. now exists z. Qed.

Lemma integral_retitle s t : integral t -> integral (retitle s t).
Proof. intros [z Hz]. now exists z. Qed.

Lemma Forall_filter {A} (P : A -> Prop) (p : A -> bool) (l : list A) :
  Forall P l -> Forall P (List.filter p l).
Proof.
  rewrite !Forall_forall. intros H x Hx. apply filter_In in Hx as [Hx _]. auto.
Qed.

(** Every createdAt of a collection built by the handlers is a reading of
    the clock. *)
Lemma built_integral (env : Env) (ts : list Todo.t) :
  built env ts -> Forall integral ts.
Proof.
  induction 1 as [| st w _ IH Hv | st i _ IH | st i _ IH | st w _ IH Hv].
  - constructor.
  - rewrite (addTodo_accepted env st w Hv).
    destruct (generateId env w) as [i w1]. destruct (now env w1) as [c w2].
    simpl. apply Forall_app. split; [exact IH |].
    constructor; [now exists c | constructor].
  - unfold toggleCompleted. simpl. apply Forall_map.
    eapply Forall_impl; [| exact IH]. intros t Ht.
    destruct (str_eqb (Todo.id t) i); [now apply integral_flip | exact Ht].
  - rewrite todos_deleteTodo. now apply Forall_filter.
  - rewrite (commitEdit_accepted st w Hv). simpl. apply Forall_map.
    eapply Forall_impl; [| exact IH]. intros t Ht.
    destruct (is_target (editingId st) t); [now apply integral_retitle | exact Ht].
Qed.

Lemma persist_then_getItem (ts : list Todo.t) (ls : Storage) :
  accepts ls STORAGE_KEY (JSON_stringify (todos_value ts)) = true ->
  exists ls',
    persist ts (Some ls) = Some ls'
    /\ getItem STORAGE_KEY ls' = Some (JSON_stringify (todos_value ts)).
Proof.
  intros H. unfold persist, setItem. rewrite H.
  eexists. split; [reflexivity |].
  unfold getItem. cbn [items]. now rewrite str_eqb_refl.
Qed.

(** C3. For a collection built from the empty one by valid Create,
    Toggle, Delete and CommitEdit steps, the text [JSON.stringify] writes
    parses back to the same array of objects, and rehydrating that text
    yields the collection itself: the same tasks in the same order, each
    with the same id, title, completed flag and createdAt, the clock not
    being consulted.  The same holds through the storage: after a write
    that the browser accepted, the initial load of a later session yields
    the collection. *)
Theorem persisted_collection_reloads (env : Env) (ts : list Todo.t) :
  built env ts ->
  forall (env' : Env) (w : World),
    JSON_parse (JSON_stringify (todos_value ts)) = Some (todos_value ts)
    /\ parseStoredTodos env' (Some (JSON_stringify (todos_value ts))) w = (ts, w)
    /\ (forall ls,
          accepts ls STORAGE_KEY (JSON_stringify (todos_value ts)) = true ->
          initialTodos env' (persist ts (Some ls)) w = (ts, w)).
Proof.
  intros Hb env' w. apply built_integral in Hb.
  split; [now apply JSON_parse_stringify_todos |].
  split; [now apply parseStoredTodos_stringify |].
  intros ls Hacc.
  destruct (persist_then_getItem ts ls Hacc) as (ls' & -> & Hget).
  unfold initialTodos. rewrite Hget. now apply parseStoredTodos_stringify.
Qed.

(** ** The parser never runs out of fuel *)

Lemma skip_ws_length (s : jsstring) : length (skip_ws s) <= length s.
Proof.
  induction s as [|c r IH]; simpl; [lia |].
  destruct (is_json_space c); simpl; lia.
Qed.

Lemma skip_ws_cons_length (s : jsstring) (c : code_unit) (r : jsstring) :
  skip_ws s = c :: r -> length r < length s.
Proof.
  intros H. pose proof (skip_ws_length s) as L. rewrite H in L. simpl in L. lia.
Qed.

Lemma push_length (c : code_unit) (p : option (jsstring * jsstring))
      (str r : jsstring) (n : nat) :
  push c p = Some (str, r) ->
  (forall str' r', p = Some (str', r') -> length r' < n) ->
  length r < n.
Proof.
  destruct p as [[str' r'] |]; simpl; [| discriminate].
  intros [= <- <-] H. now apply (H str').
Qed.

Lemma parse_chars_length (s str r : jsstring) :
  parse_chars s = Some (str, r) -> length r < length s.
Proof.
  remember (length s) as n eqn:Hn.
  assert (Hle : length s <= n) by lia. clear Hn.
  revert s str r Hle. induction n as [|n IH]; intros s str r Hle H.
  - destruct s; [discriminate | simpl in Hle; lia].
  - destruct s as [|c s1]; [discriminate |].
    simpl in Hle. cbn [parse_chars] in H.
    destruct (c =? 34)%N; [injection H as _ <-; lia |].
    destruct (c =? 92)%N.
    + destruct s1 as [|e s2]; [discriminate |].
      destruct (e =? 117)%N.
      * destruct s2 as [|h1 [|h2 [|h3 [|h4 s3]]]]; try discriminate.
        destruct (hex4 h1 h2 h3 h4); [| discriminate].
        eapply push_length; [exact H |]. intros str' r' H'.
        apply IH in H'; simpl in *; lia.
      * destruct (simple_escape e); [| discriminate].
        eapply push_length; [exact H |]. intros str' r' H'.
        apply IH in H'; simpl in *; lia.
    + destruct (c <? 32)%N; [discriminate |].
      eapply push_length; [exact H |]. intros str' r' H'.
      apply IH in H'; lia.
Qed.

Lemma span_digits_length (s : jsstring) (d : Decimal.uint) (r : jsstring) :
  span_digits s = (d, r) ->
  length r <= length s /\ (d <> Decimal.Nil -> length r < length s).
Proof.
  revert d r. induction s as [|c s IH]; intros d r H; simpl in H.
  - injection H as <- <-. split; [lia | congruence].
  - destruct (is_digit c).
    + destruct (span_digits s) as [d' r'] eqn:E. injection H as <- <-.
      destruct (IH d' r' eq_refl) as [L _]. simpl. split; lia.
    + injection H as <- <-. split; [lia | congruence].
Qed.

Lemma parse_fraction_length (s : jsstring) (f : Decimal.uint) (r : jsstring) :
  parse_fraction s = Some (f, r) -> length r <= length s.
Proof.
  unfold parse_fraction. destruct s as [|c s]; [now intros [= <- <-] |].
  destruct (c =? 46)%N.
  - destruct (span_digits s) as [d r'] eqn:E.
    apply span_digits_length in E as [L _].
    destruct d; try discriminate; intros [= <- <-]; simpl; lia.
  - now intros [= <- <-].
Qed.

Lemma parse_exponent_length (s : jsstring) (e : Z) (r : jsstring) :
  parse_exponent s = Some (e, r) -> length r <= length s.
Proof.
  unfold parse_exponent. destruct s as [|c s]; [now intros [= <- <-] |].
  destruct ((c =? 101) || (c =? 69))%N; [| now intros [= <- <-]].
  assert (Hsign : exists neg r1,
             (match s with
              | g :: r' =>
                  if (g =? 45)%N then (true, r')
                  else if (g =? 43)%N then (false, r') else (false, s)
              | [] => (false, s)
              end) = (neg, r1) /\ length r1 <= length s).
  { destruct s as [|g r']; [eauto |].
    destruct (g =? 45)%N; [eexists _, _; split; [reflexivity | simpl; lia] |].
    destruct (g =? 43)%N; eexists _, _; (split; [reflexivity | simpl; lia]). }
  destruct Hsign as (neg & r1 & -> & L1).
  destruct (span_digits r1) as [d r2] eqn:E2.
  apply span_digits_length in E2 as [L _].
  destruct d; try discriminate; intros [= <- <-]; simpl; lia.
Qed.

Lemma parse_unsigned_length (neg : bool) (s : jsstring) (n : number) (r : jsstring) :
  parse_unsigned neg s = Some (n, r) -> length r < length s.
Proof.
  unfold parse_unsigned. destruct (span_digits s) as [ip s2] eqn:E.
  apply span_digits_length in E as [_ L].
  assert (Hrest : match parse_fraction s2 with
                  | None => None
                  | Some (fp, s3) =>
                      match parse_exponent s3 with
                      | None => None
                      | Some (ex, s4) => Some (number_of_literal neg ip fp ex, s4)
                      end
                  end = Some (n, r) -> length r <= length s2).
  { destruct (parse_fraction s2) as [[fp s3] |] eqn:Ef; [| discriminate].
    apply parse_fraction_length in Ef.
    destruct (parse_exponent s3) as [[ex s4] |] eqn:Ee; [| discriminate].
    apply parse_exponent_length in Ee. intros [= _ <-]. lia. }
  destruct ip as [| i | i | i | i | i | i | i | i | i | i]; try discriminate;
    try (intros H; apply Hrest in H;
         assert (length s2 < length s) by (apply L; discriminate); lia).
  destruct i; try discriminate.
  intros H; apply Hrest in H.
  assert (length s2 < length s) by (apply L; discriminate). lia.
Qed.

Lemma parse_number_length (s : jsstring) (n : number) (r : jsstring) :
  parse_number s = Some (n, r) -> length r < length s.
Proof.
  unfold parse_number. destruct s as [|c s]; [discriminate |].
  destruct (c =? 45)%N; intros H; apply parse_unsigned_length in H; simpl in *; lia.
Qed.

Lemma strip_prefix_length (p s r : jsstring) :
  strip_prefix p s = Some r -> length r <= length s.
Proof.
  revert s. induction p as [|a p IH]; intros s; simpl.
  - now intros [= <-].
  - destruct s as [|b s]; [discriminate |].
    destruct (a =? b)%N; [| discriminate].
    intros H. apply IH in H. simpl. lia.
Qed.

Lemma keyword_length (p : jsstring) (v v' : json) (s r : jsstring) :
  keyword p v s = Ok v' r -> length r <= length s.
Proof.
  unfold keyword. destruct (strip_prefix p s) eqn:E; [| discriminate].
  intros [= _ <-]. now apply strip_prefix_length in E.
Qed.

(** A successful parse consumes at least one character. *)
Lemma parse_consumes (fuel : nat) :
  (forall s v r, parse_value fuel s = Ok v r -> length r < length s)
  /\ (forall s acc v r, parse_elements fuel s acc = Ok v r -> length r < length s)
  /\ (forall s acc v r, parse_members fuel s acc = Ok v r -> length r < length s).
Proof.
  induction fuel as [|f (IHv & IHe & IHm)];
    [repeat split; intros; discriminate |].
  split; [| split].
  - intros s v r H. cbn [parse_value] in H.
    destruct (skip_ws s) as [|c r0] eqn:Es; [discriminate |].
    apply skip_ws_cons_length in Es.
    destruct (c =? 123)%N.
    { destruct (skip_ws r0) as [|c' r'] eqn:E1; [discriminate |].
      apply skip_ws_cons_length in E1.
      destruct (c' =? 125)%N; [injection H as _ <-; lia |].
      apply IHm in H. simpl in H. lia. }
    destruct (c =? 91)%N.
    { destruct (skip_ws r0) as [|c' r'] eqn:E1; [discriminate |].
      apply skip_ws_cons_length in E1.
      destruct (c' =? 93)%N; [injection H as _ <-; lia |].
      apply IHe in H. simpl in H. lia. }
    destruct (c =? 34)%N.
    { destruct (parse_chars r0) as [[str r'] |] eqn:E; [| discriminate].
      injection H as _ <-. apply parse_chars_length in E. lia. }
    destruct (c =? 116)%N; [apply keyword_length in H; lia |].
    destruct (c =? 102)%N; [apply keyword_length in H; lia |].
    destruct (c =? 110)%N; [apply keyword_length in H; lia |].
    destruct ((c =? 45) || is_digit c)%N; [| discriminate].
    destruct (parse_number (c :: r0)) as [[n r'] |] eqn:E; [| discriminate].
    injection H as _ <-. apply parse_number_length in E. simpl in E. lia.
  - intros s acc v r H. cbn [parse_elements] in H.
    destruct (parse_value f s) as [v1 r1 | |] eqn:E; try discriminate.
    apply IHv in E.
    destruct (skip_ws r1) as [|c r'] eqn:E1; [discriminate |].
    apply skip_ws_cons_length in E1.
    destruct (c =? 44)%N; [apply IHe in H; lia |].
    destruct (c =? 93)%N; [injection H as _ <-; lia | discriminate].
  - intros s acc v r H. cbn [parse_members] in H.
    destruct (skip_ws s) as [|q r0] eqn:Es; [discriminate |].
    apply skip_ws_cons_length in Es.
    destruct (q =? 34)%N; [| discriminate].
    destruct (parse_chars r0) as [[k r1] |] eqn:Ek; [| discriminate].
    apply parse_chars_length in Ek.
    destruct (skip_ws r1) as [|c r2] eqn:E1; [discriminate |].
    apply skip_ws_cons_length in E1.
    destruct (c =? 58)%N; [| discriminate].
    destruct (parse_value f r2) as [v1 r3 | |] eqn:E; try discriminate.
    apply IHv in E.
    destruct (skip_ws r3) as [|c' r4] eqn:E3; [discriminate |].
    apply skip_ws_cons_length in E3.
    destruct (c' =? 44)%N; [apply IHm in H; lia |].
    destruct (c' =? 125)%N; [injection H as _ <-; lia | discriminate].
Qed.

Lemma keyword_has_fuel (p : jsstring) (v : json) (s : jsstring) :
  keyword p v s <> OutOfFuel.
Proof. unfold keyword. destruct (strip_prefix p s); discriminate. Qed.

(** Twice the length of the text, and one more, is fuel enough. *)
Lemma parse_has_fuel (fuel : nat) :
  (forall s, 2 * length s + 1 <= fuel -> parse_value fuel s <> OutOfFuel)
  /\ (forall s acc, 2 * length s + 2 <= fuel -> parse_elements fuel s acc <> OutOfFuel)
  /\ (forall s acc, 2 * length s + 1 <= fuel -> parse_members fuel s acc <> OutOfFuel).
Proof.
  induction fuel as [|f (IHv & IHe & IHm)]; [repeat split; intros; lia |].
  destruct (parse_consumes f) as (Cv & _ & _).
  split; [| split].
  - intros s L. cbn [parse_value].
    destruct (skip_ws s) as [|c r0] eqn:Es; [discriminate |].
    apply skip_ws_cons_length in Es.
    destruct (c =? 123)%N.
    { destruct (skip_ws r0) as [|c' r'] eqn:E1; [discriminate |].
      apply skip_ws_cons_length in E1.
      destruct (c' =? 125)%N; [discriminate |].
      apply IHm. simpl. lia. }
    destruct (c =? 91)%N.
    { destruct (skip_ws r0) as [|c' r'] eqn:E1; [discriminate |].
      apply skip_ws_cons_length in E1.
      destruct (c' =? 93)%N; [discriminate |].
      apply IHe. simpl. lia. }
    destruct (c =? 34)%N; [destruct (parse_chars r0) as [[? ?] |]; discriminate |].
    destruct (c =? 116)%N; [apply keyword_has_fuel |].
    destruct (c =? 102)%N; [apply keyword_has_fuel |].
    destruct (c =? 110)%N; [apply keyword_has_fuel |].
    destruct ((c =? 45) || is_digit c)%N; [| discriminate].
    destruct (parse_number (c :: r0)) as [[? ?] |]; discriminate.
  - intros s acc L. cbn [parse_elements].
    destruct (parse_value f s) as [v1 r1 | |] eqn:E; [| discriminate |].
    + apply Cv in E.
      destruct (skip_ws r1) as [|c r'] eqn:E1; [discriminate |].
      apply skip_ws_cons_length in E1.
      destruct (c =? 44)%N; [apply IHe; lia |].
      destruct (c =? 93)%N; discriminate.
    + elim (IHv s); [lia | exact E].
  - intros s acc L. cbn [parse_members].
    destruct (skip_ws s) as [|q r0] eqn:Es; [discriminate |].
    apply skip_ws_cons_length in Es.
    destruct (q =? 34)%N; [| discriminate].
    destruct (parse_chars r0) as [[k r1] |] eqn:Ek; [| discriminate].
    apply parse_chars_length in Ek.
    destruct (skip_ws r1) as [|c r2] eqn:E1; [discriminate |].
    apply skip_ws_cons_length in E1.
    destruct (c =? 58)%N; [| discriminate].
    destruct (parse_value f r2) as [v1 r3 | |] eqn:E; [| discriminate |].
    + apply Cv in E.
      destruct (skip_ws r3) as [|c' r4] eqn:E3; [discriminate |].
      apply skip_ws_cons_length in E3.
      destruct (c' =? 44)%N; [apply IHm; lia |].
      destruct (c' =? 125)%N; discriminate.
    + elim (IHv r2); [lia | exact E].
Qed.

(** [JSON_parse] answers [None] only for a text that is not JSON. *)
Lemma JSON_parse_has_fuel (text : jsstring) :
  parse_value (S (2 * length text)) text <> OutOfFuel.
Proof. apply (parse_has_fuel (S (2 * length text))). lia. Qed.

(** The base-36 conversion is not cut short either: any fuel that bounds
    the number of bits gives the same digits. *)
Lemma pos_lt_pow2_size_nat (p : positive) :
  (N.pos p < 2 ^ N.of_nat (Pos.size_nat p))%N.
Proof.
  induction p as [p IH | p IH |]; cbn [Pos.size_nat];
    rewrite ?Nat2N.inj_succ, ?N.pow_succ_r'; [lia | lia | reflexivity].
Qed.

Lemma to_radix36_fuel (f1 : nat) :
  forall (f2 : nat) (n : N) (acc : jsstring),
    (0 < n)%N -> (n < 2 ^ N.of_nat f1)%N -> (n < 2 ^ N.of_nat f2)%N ->
    to_radix36 f1 n acc = to_radix36 f2 n acc.
Proof.
  induction f1 as [|f1 IH]; intros f2 n acc Hpos H1 H2.
  - simpl in H1. lia.
  - destruct f2 as [|f2]; [simpl in H2; lia |].
    cbn [to_radix36].
    destruct (N.eqb_spec (n / 36) 0) as [E | E]; [reflexivity |].
    rewrite Nat2N.inj_succ, N.pow_succ_r' in H1, H2.
    apply IH.
    + now apply N.neq_0_lt_0.
    + apply N.Div0.div_lt_upper_bound.
      eapply N.lt_le_trans; [exact H1 |]. apply N.mul_le_mono_r. lia.
    + apply N.Div0.div_lt_upper_bound.
      eapply N.lt_le_trans; [exact H2 |]. apply N.mul_le_mono_r. lia.
Qed.

Lemma toString36_fuel (p : positive) (f : nat) :
  Pos.size_nat p <= f ->
  to_radix36 f (N.pos p) [] = to_radix36 (Pos.size_nat p) (N.pos p) [].
Proof.
  intros L. apply to_radix36_fuel; [lia | | apply pos_lt_pow2_size_nat].
  eapply N.lt_le_trans; [apply pos_lt_pow2_size_nat |].
  apply N.pow_le_mono_r; lia.
Qed.

(** ** The theorems at sample inputs *)

Lemma addTodo_appends_task_witness :
  let env := steady_env 1700000000000 (lit "0.4fzyo82mvyr") in
  let st := setNewTitle (lit "  Write report ") two_tasks in
  let st' := next_state (addTodo env st fresh_world) in
  exists next,
    todos st' = todos st ++ [next]
    /\ Todo.title next = lit "Write report"
    /\ Todo.completed next = false
    /\ view FilterAll st' = view FilterAll st ++ [next].
Proof.
  cbv zeta.
  destruct (addTodo_appends_task
              (steady_env 1700000000000 (lit "0.4fzyo82mvyr"))
              (setNewTitle (lit "  Write report ") two_tasks) fresh_world)
    as (next & E & Ht & Hc & _ & Hat & Hsort).
  - discriminate.
  - vm_compute. lia.
  - exists next. split; [exact E |]. split; [exact Ht |]. split; [exact Hc |].
    apply Hsort. rewrite Hat.
    repeat constructor; unfold Qle; simpl; lia.
Defined.

Lemma addTodo_invalid_title_rejected_witness :
  let st := setNewTitle (lit "   ") two_tasks in
  exists msg,
    msg <> []
    /\ error (next_state (addTodo (steady_env 5 []) st fresh_world)) = msg
    /\ todos (next_state (addTodo (steady_env 5 []) st fresh_world)) = todos st.
Proof.
  cbv zeta.
  destruct (addTodo_invalid_title_rejected (steady_env 5 [])
              (setNewTitle (lit "   ") two_tasks) fresh_world)
    as (msg & _ & Hne & (_ & _ & _ & _ & _ & He) & Ht & _).
  - left. reflexivity.
  - exists msg. auto.
Defined.

Lemma persisted_collection_reloads_witness :
  let ts := todos (fst one_task_session) in
  ts <> []
  /\ parseStoredTodos (steady_env 5 []) (Some (JSON_stringify (todos_value ts)))
                      fresh_world = (ts, fresh_world)
  /\ initialTodos (steady_env 5 []) (persist ts (Some roomy_storage)) fresh_world
     = (ts, fresh_world).
Proof.
  cbv zeta. split; [discriminate |].
  destruct (persisted_collection_reloads
              (steady_env 1700000000000 (lit "0.4fzyo82mvyr"))
              (todos (fst one_task_session))) with (env' := steady_env 5 [])
                                                   (w := fresh_world)
    as (_ & Hload & Hstore).
  - unfold one_task_session. apply built_create; [apply built_empty | reflexivity].
  - split; [exact Hload |]. apply Hstore. reflexivity.
Defined.

Lemma parseStoredTodos_tolerant_witness :
  let env := steady_env 99 [] in
  parseStoredTodos env None fresh_world = ([], fresh_world)
  /\ parseStoredTodos env (Some (lit "{oops")) fresh_world = ([], fresh_world)
  /\ parseStoredTodos env (Some (lit "{}")) fresh_world = ([], fresh_world)
  /\ (let r := parseStoredTodos env (Some (JSON_stringify (JArr mixed_elements)))
                                 fresh_world in
      Forall2 (rehydrated env fresh_world (next_world r))
              (List.filter conforming mixed_elements) (next_state r)).
Proof.
  cbv zeta. split; [| split; [| split]].
  - apply (parseStoredTodos_tolerant (steady_env 99 []) None fresh_world).
    now left.
  - apply (parseStoredTodos_tolerant (steady_env 99 []) (Some (lit "{oops")) fresh_world)
      with (text := lit "{oops"); reflexivity.
  - apply (parseStoredTodos_tolerant (steady_env 99 []) (Some (lit "{}")) fresh_world)
      with (text := lit "{}") (v := JObj []); try reflexivity. discriminate.
  - destruct (parseStoredTodos_tolerant (steady_env 99 [])
                (Some (JSON_stringify (JArr mixed_elements))) fresh_world)
      as (_ & _ & _ & H).
    destruct (H (JSON_stringify (JArr mixed_elements)) mixed_elements eq_refl)
      as (_ & R & _); [vm_compute; reflexivity | exact R].
Defined.

Lemma distinct_ids_preserved_witness :
  let env := steady_env 1000 (lit "0.abc") in
  NoDup (ids (todos (deleteTodo (lit "a") two_tasks)))
  /\ NoDup (ids (todos (clearCompleted two_tasks)))
  /\ NoDup (ids (todos (next_state
                          (addTodo env (setNewTitle (lit "c") two_tasks) fresh_world))))
  /\ ids (next_state (parseStoredTodos env (Some (JSON_stringify (todos_value twins)))
                                       fresh_world))
     = [lit "x"; lit "x"].
Proof.
  cbv zeta.
  destruct (distinct_ids_preserved (steady_env 1000 (lit "0.abc")) two_tasks)
    as (Hops & _).
  destruct (distinct_ids_preserved (steady_env 1000 (lit "0.abc"))
              (setNewTitle (lit "c") two_tasks)) as (Hadd & Hload).
  assert (Hnd : NoDup (ids (todos two_tasks))).
  { repeat constructor; simpl; intuition discriminate. }
  destruct (Hops Hnd) as (_ & Hdel & _ & Hclear & _).
  destruct (Hadd Hnd) as (_ & _ & _ & _ & Hcreate).
  split; [apply Hdel |]. split; [exact Hclear |]. split.
  - apply Hcreate. vm_compute. intuition discriminate.
  - destruct (Hload (JSON_stringify (todos_value twins)) (map todo_value twins)
                    fresh_world) as (E & _); [vm_compute; reflexivity |].
    rewrite E. reflexivity.
Defined.

Lemma deleteTodo_removes_the_task_witness :
  (exists l1 t l2,
      todos two_tasks = l1 ++ t :: l2 /\ Todo.id t = lit "b"
      /\ todos (deleteTodo (lit "b") two_tasks) = l1 ++ l2
      /\ Counts.total (getCounts (todos (deleteTodo (lit "b") two_tasks))) + 1
         = Counts.total (getCounts (todos two_tasks)))
  /\ todos (deleteTodo (lit "zz") two_tasks) = todos two_tasks
  /\ ~ In (lit "x") (ids (todos (deleteTodo (lit "x") (initialState twins)))).
Proof.
  split; [| split].
  - apply (proj1 (proj2 (deleteTodo_removes_the_task (lit "b") two_tasks))).
    + repeat constructor; simpl; intuition discriminate.
    + right. left. reflexivity.
  - apply (proj2 (proj2 (deleteTodo_removes_the_task (lit "zz") two_tasks))).
    simpl. intuition discriminate.
  - apply (proj1 (deleteTodo_removes_the_task (lit "x") (initialState twins))).
Defined.


Lemma absent_id_operations_witness :
  toggleCompleted (lit "zz") stale_edit = stale_edit
  /\ todos (deleteTodo (lit "zz") stale_edit) = todos stale_edit
  /\ deleteTodo (lit "zz") stale_edit = cancelEdit stale_edit
  /\ commitEdit stale_edit fresh_world = (cancelEdit stale_edit, fresh_world).
Proof.
  destruct (absent_id_operations (lit "zz") stale_edit)
    as (Ht & (Hd & _ & Hdc) & _ & Hc).
  - simpl. intuition discriminate.
  - split; [exact Ht |]. split; [exact Hd |]. split; [now apply Hdc |].
    apply Hc; [reflexivity | discriminate | vm_compute; lia].
Defined.

(* ================================================================== *)
(** * Further properties of the store *)

(** ** Counts and views *)

Lemma filter_insert_by_length {A} (cmp : A -> A -> number) (p : A -> bool)
      (x : A) (l : list A) :
  length (List.filter p (insert_by cmp x l)) = length (List.filter p (x :: l)).
Proof.
  induction l as [|y r IH]; [reflexivity |].
  cbn [insert_by]. destruct (is_positive (cmp x y)); [| reflexivity].
  cbn [List.filter] in *. destruct (p y), (p x); cbn [length] in *; lia.
Qed.

Lemma filter_sort_by_length {A} (cmp : A -> A -> number) (p : A -> bool) (l : list A) :
  length (List.filter p (sort_by cmp l)) = length (List.filter p l).
Proof.
  induction l as [|x r IH]; [reflexivity |].
  cbn [sort_by]. rewrite filter_insert_by_length.
  cbn [List.filter]. destruct (p x); cbn [length]; lia.
Qed.

(** X1. The three counts always add up, and they are the sizes of the
    three views: the total is the number of tasks shown under All, the
    active count the number shown under Active, the completed count the
    number shown under Completed. *)
Theorem counts_are_view_sizes (st : AppState) :
  Counts.active (counts st) + Counts.completed (counts st) = Counts.total (counts st)
  /\ Counts.completed (counts st) <= Counts.total (counts st)
  /\ length (view FilterAll st) = Counts.total (counts st)
  /\ length (view FilterActive st) = Counts.active (counts st)
  /\ length (view FilterCompleted st) = Counts.completed (counts st).
Proof.
  unfold counts. cbn [getCounts Counts.total Counts.active Counts.completed].
  pose proof (filter_partition_length Todo.completed (todos st)) as P.
  assert (L : length (List.filter Todo.completed (todos st)) <= length (todos st))
    by apply filter_length_le.
  split; [lia |]. split; [exact L |]. split; [| split].
  - rewrite view_all. apply Permutation_length, sort_by_Permutation.
  - rewrite view_active, filter_sort_by_length. lia.
  - rewrite view_completed.
    rewrite (filter_sort_by_length byCreatedAt (fun t => Todo.completed t)).
    reflexivity.
Qed.

Lemma filter_insert_by_same_time (q : number) (x : Todo.t) (l : list Todo.t) :
  List.filter (fun t => Qeq_bool (Todo.createdAt t) q) (insert_by byCreatedAt x l)
  = List.filter (fun t => Qeq_bool (Todo.createdAt t) q) (x :: l).
Proof.
  induction l as [|y r IH]; [reflexivity |].
  cbn [insert_by]. destruct (is_positive (byCreatedAt x y)) eqn:E; [| reflexivity].
  apply is_positive_byCreatedAt in E.
  cbn [List.filter] in *. rewrite IH.
  destruct (Qeq_bool (Todo.createdAt x) q) eqn:Ex; [| reflexivity].
  destruct (Qeq_bool (Todo.createdAt y) q) eqn:Ey; [| reflexivity].
  apply Qeq_bool_iff in Ex, Ey. rewrite Ex, Ey in E.
  now apply Qlt_irrefl in E.
Qed.

(** X2. The default ordering is stable: the tasks that share a createdAt
    value appear in the view of all in the order they have in the
    collection. *)
Theorem visibleTodos_keeps_order_of_ties (st : AppState) (q : number) :
  List.filter (fun t => Qeq_bool (Todo.createdAt t) q) (view FilterAll st)
  = List.filter (fun t => Qeq_bool (Todo.createdAt t) q) (todos st).
Proof.
  rewrite view_all. induction (todos st) as [|x r IH]; [reflexivity |].
  cbn [sort_by]. rewrite filter_insert_by_same_time.
  cbn [List.filter]. now rewrite IH.
Qed.

Lemma insert_by_first (x : Todo.t) (l : list Todo.t) :
  Forall (fun t => (Todo.createdAt x <= Todo.createdAt t)%Q) l ->
  insert_by byCreatedAt x l = x :: l.
Proof.
  destruct l as [|y r]; [reflexivity |]. intros H. apply Forall_inv in H.
  cbn [insert_by]. apply not_positive_byCreatedAt in H. now rewrite H.
Qed.

Lemma sort_by_ascending_id (l : list Todo.t) :
  ascending l -> sort_by byCreatedAt l = l.
Proof.
  unfold ascending. induction 1 as [|x l Hs IH Hx]; [reflexivity |].
  cbn [sort_by]. rewrite IH. now apply insert_by_first.
Qed.

(** X3. When the collection is already ascending by createdAt, as it is
    when every task was created at or after the ones before it, the view
    of all shows the collection in its own order, and the other two views
    are the collection filtered in that order. *)
Theorem visibleTodos_of_ascending (st : AppState) :
  ascending (todos st) ->
  view FilterAll st = todos st
  /\ view FilterActive st = List.filter (fun t => negb (Todo.completed t)) (todos st)
  /\ view FilterCompleted st = List.filter (fun t => Todo.completed t) (todos st).
Proof.
  intros H. rewrite view_all, view_active, view_completed.
  now rewrite (sort_by_ascending_id _ H).
Qed.

(** ** Toggle *)

Lemma flip_flip (t : Todo.t) : flip (flip t) = t.
Proof. destruct t as [i s c a]. unfold flip. simpl. now rewrite negb_involutive. Qed.

(** X4. Toggling the same id twice gives back the state it started from,
    whatever the collection holds. *)
Theorem toggleCompleted_twice (i : jsstring) (st : AppState) :
  toggleCompleted i (toggleCompleted i st) = st.
Proof.
  destruct st as [ts nt ei et f e]. unfold toggleCompleted, setTodos. simpl.
  f_equal. rewrite map_map.
  induction ts as [|t ts IH]; [reflexivity |]. cbn [map]. rewrite IH. f_equal.
  destruct (str_eqb (Todo.id t) i) eqn:E; [| now rewrite E].
  change (Todo.id (flip t)) with (Todo.id t). rewrite E. apply flip_flip.
Qed.

Lemma map_toggle_Forall2 (i : jsstring) (ts : list Todo.t) :
  Forall2 (toggled i) ts
    (map (fun t => if str_eqb (Todo.id t) i then flip t else t) ts).
Proof.
  induction ts as [|t ts IH]; simpl; constructor; [| exact IH].
  destruct (str_eqb (Todo.id t) i) eqn:E.
  - apply str_eqb_eq in E. unfold toggled; simpl.
    repeat split; try reflexivity. intros H; now elim H.
  - apply str_eqb_neq in E. unfold toggled.
    repeat split; try reflexivity. intros H; congruence.
Qed.

Lemma completed_count_toggle (i : jsstring) (ts : list Todo.t) (b : bool) :
  NoDup (ids ts) ->
  (exists t, In t ts /\ Todo.id t = i /\ Todo.completed t = b) ->
  length (List.filter Todo.completed
            (map (fun t => if str_eqb (Todo.id t) i then flip t else t) ts))
    + (if b then 1 else 0)
  = length (List.filter Todo.completed ts) + (if b then 0 else 1).
Proof.
  induction ts as [|t ts IH]; intros Hnd (u & Hin & Hid & Hc); [contradiction |].
  cbn [ids map] in Hnd. apply NoDup_cons_iff in Hnd as [Hnot Hnd].
  cbn [map List.filter].
  destruct (str_eqb (Todo.id t) i) eqn:E.
  - apply str_eqb_eq in E.
    assert (u = t).
    { destruct Hin as [-> | Hin]; [reflexivity |].
      elim Hnot. rewrite E, <- Hid. now apply in_map. }
    subst u. rewrite (map_absent_id i flip ts) by (rewrite <- E; exact Hnot).
    unfold flip; cbn [Todo.completed]. rewrite Hc.
    destruct b; cbn [negb length]; lia.
  - apply str_eqb_neq in E.
    destruct Hin as [-> | Hin]; [congruence |].
    specialize (IH Hnd (ex_intro _ u (conj Hin (conj Hid Hc)))).
    destruct (Todo.completed t); cbn [length]; lia.
Qed.

(** X5. Toggle(id) keeps the tasks in place with their id, title and
    createdAt, flips the completed flag of the tasks whose id matches and
    leaves the others as they are; nothing else of the state changes and
    the total stays the same.  When the ids are pairwise distinct and a
    task has that id, the completed count moves by exactly one: up if the
    task was active, down if it was completed. *)
Theorem toggleCompleted_effect (i : jsstring) (st : AppState) :
  let st' := toggleCompleted i st in
  Forall2 (toggled i) (todos st) (todos st')
  /\ newTitle st' = newTitle st /\ editingId st' = editingId st
  /\ editingTitle st' = editingTitle st /\ filter st' = filter st
  /\ error st' = error st
  /\ Counts.total (counts st') = Counts.total (counts st)
  /\ (NoDup (ids (todos st)) ->
      forall t, In t (todos st) -> Todo.id t = i ->
        if Todo.completed t
        then Counts.completed (counts st') + 1 = Counts.completed (counts st)
        else Counts.completed (counts st') = Counts.completed (counts st) + 1).
Proof.
  cbv zeta. unfold toggleCompleted, counts. cbn [setTodos todos newTitle editingId
    editingTitle filter error getCounts Counts.total Counts.completed].
  split; [apply map_toggle_Forall2 |].
  repeat (split; [reflexivity |]).
  split; [now rewrite length_map |].
  intros Hnd t Hin Hid.
  pose proof (completed_count_toggle i (todos st) (Todo.completed t) Hnd
                (ex_intro _ t (conj Hin (conj Hid eq_refl)))) as H.
  destruct (Todo.completed t); lia.
Qed.

(** ** Delete *)

Lemma filter_idempotent {A} (p : A -> bool) (l : list A) :
  List.filter p (List.filter p l) = List.filter p l.
Proof.
  induction l as [|x l IH]; [reflexivity |].
  cbn [List.filter]. destruct (p x) eqn:E; [| exact IH].
  cbn [List.filter]. now rewrite E, IH.
Qed.

(** X6. After Delete(id) no task has that id, every task with another id
    is still there, in the same order, and a second Delete(id) changes
    nothing at all. *)
Theorem deleteTodo_removes_id (i : jsstring) (st : AppState) :
  ~ In i (ids (todos (deleteTodo i st)))
  /\ (forall t, Todo.id t <> i -> (In t (todos (deleteTodo i st)) <-> In t (todos st)))
  /\ todos (deleteTodo i st)
     = List.filter (fun t => negb (str_eqb (Todo.id t) i)) (todos st)
  /\ deleteTodo i (deleteTodo i st) = deleteTodo i st.
Proof.
  split; [| split; [| split]].
  - rewrite todos_deleteTodo. unfold ids. rewrite in_map_iff.
    intros (t & Hid & Hin). apply filter_In in Hin as [_ H].
    rewrite <- Hid, str_eqb_refl in H. discriminate.
  - intros t Hne. rewrite todos_deleteTodo, filter_In.
    apply str_eqb_neq in Hne. rewrite Hne. simpl. tauto.
  - apply todos_deleteTodo.
  - assert (Hin : is_editing (editingId (deleteTodo i st)) i = false).
    { unfold deleteTodo. destruct (is_editing (editingId st) i) eqn:E;
        [reflexivity | exact E]. }
    unfold deleteTodo at 1. rewrite Hin.
    apply setTodos_id. rewrite todos_deleteTodo. apply filter_idempotent.
Qed.

(** X7. Deleting the task that is being edited cancels the edit: the edit
    target, the edit buffer and the error message are cleared.  Deleting
    any other id leaves the edit target, the edit buffer and the error
    message as they are.  The input field and the filter are never
    touched. *)
Theorem deleteTodo_edit_state (i : jsstring) (st : AppState) :
  (editingId st = Some i ->
   editingId (deleteTodo i st) = None
   /\ editingTitle (deleteTodo i st) = []
   /\ error (deleteTodo i st) = [])
  /\ (editingId st <> Some i ->
      editingId (deleteTodo i st) = editingId st
      /\ editingTitle (deleteTodo i st) = editingTitle st
      /\ error (deleteTodo i st) = error st)
  /\ newTitle (deleteTodo i st) = newTitle st
  /\ filter (deleteTodo i st) = filter st.
Proof.
  unfold deleteTodo. split; [| split].
  - intros E. rewrite E. cbn [is_editing]. rewrite str_eqb_refl. repeat split.
  - intros E. destruct (is_editing (editingId st) i) eqn:H.
    + apply is_editing_true in H. contradiction.
    + repeat split.
  - destruct (is_editing (editingId st) i); split; reflexivity.
Qed.

(** ** ClearCompleted *)

Lemma filter_all_true {A} (p : A -> bool) (l : list A) :
  List.filter p l = l <-> forallb p l = true.
Proof.
  split; [| apply forallb_filter_id].
  intros H. rewrite <- H. apply forallb_filter.
Qed.

Lemma no_completed_iff (ts : list Todo.t) :
  length (List.filter Todo.completed ts) = 0
  <-> List.filter (fun t => negb (Todo.completed t)) ts = ts.
Proof.
  rewrite filter_all_true.
  induction ts as [|t ts IH]; [simpl; tauto |].
  cbn [List.filter forallb]. destruct (Todo.completed t); cbn [negb andb length].
  - split; [lia | discriminate].
  - exact IH.
Qed.

(** X8. The Clear completed button is disabled exactly when ClearCompleted
    would leave the collection as it is, that is when no task is
    completed. *)
Theorem clearCompletedDisabled_iff (st : AppState) :
  clearCompletedDisabled st = true <-> todos (clearCompleted st) = todos st.
Proof.
  unfold clearCompletedDisabled, counts.
  cbn [getCounts Counts.completed].
  rewrite Nat.eqb_eq, todos_clearCompleted. apply no_completed_iff.
Qed.

(** X9. ClearCompleted done twice is ClearCompleted done once: the second
    run changes neither the collection nor the edit state. *)
Theorem clearCompleted_twice (st : AppState) :
  clearCompleted (clearCompleted st) = clearCompleted st.
Proof.
  set (st1 := clearCompleted st).
  assert (Ht : List.filter (fun t => negb (Todo.completed t)) (todos st1) = todos st1).
  { unfold st1. rewrite todos_clearCompleted. apply filter_idempotent. }
  unfold clearCompleted at 1. rewrite (setTodos_id _ st1 Ht).
  destruct (truthy (editingId st1)) eqn:Etru; [| reflexivity].
  destruct (editingId st1) as [[|c e] |] eqn:Ee; try discriminate.
  assert (Hst : editingId st = Some (c :: e)).
  { unfold st1, clearCompleted in Ee.
    destruct (truthy (editingId st)); [| exact Ee].
    destruct (negb _); [discriminate | exact Ee]. }
  assert (Hex : existsb (fun t => is_target (Some (c :: e)) t && negb (Todo.completed t))
                        (todos st) = true).
  { unfold st1, clearCompleted in Ee. rewrite Hst in Ee. cbn [truthy] in Ee.
    destruct (existsb _ (todos st)); [reflexivity | discriminate]. }
  apply clearCompleted_target_check in Hex.
  assert (Hex1 : existsb (fun t => is_target (Some (c :: e)) t && negb (Todo.completed t))
                         (todos st1) = true).
  { apply clearCompleted_target_check. rewrite Ht.
    unfold st1. now rewrite todos_clearCompleted. }
  match goal with
  | |- (if negb ?b then _ else _) = _ =>
      replace b with true by (symmetry; exact Hex1)
  end.
  reflexivity.
Qed.

(** ** Trimming and validation *)

Lemma trimStart_nil_iff (s : jsstring) :
  trimStart s = [] <-> forallb is_whitespace s = true.
Proof.
  induction s as [|c r IH]; [simpl; tauto |].
  cbn [trimStart forallb]. destruct (is_whitespace c); cbn [andb];
    [exact IH | split; discriminate].
Qed.

Lemma trimStart_head (s : jsstring) (c : code_unit) (r : jsstring) :
  trimStart s = c :: r -> is_whitespace c = false.
Proof.
  induction s as [|d s IH]; [discriminate |].
  cbn [trimStart]. destruct (is_whitespace d) eqn:E; [exact IH |].
  now intros [= <- _].
Qed.

Lemma trimStart_split (s : jsstring) :
  exists ws, s = ws ++ trimStart s /\ forallb is_whitespace ws = true.
Proof.
  induction s as [|c r (ws & E & H)]; [now exists [] |].
  cbn [trimStart]. destruct (is_whitespace c) eqn:Ec.
  - exists (c :: ws). cbn [app forallb]. rewrite Ec, H. split; [congruence | reflexivity].
  - now exists [].
Qed.

Lemma trimStart_fixed (s : jsstring) :
  (forall c r, s = c :: r -> is_whitespace c = false) -> trimStart s = s.
Proof.
  destruct s as [|c r]; [reflexivity |]. intros H.
  cbn [trimStart]. now rewrite (H c r eq_refl).
Qed.

Lemma forallb_rev {A} (p : A -> bool) (l : list A) :
  forallb p (rev l) = forallb p l.
Proof.
  destruct (forallb p l) eqn:E.
  - rewrite forallb_forall in *. intros x Hx. apply E. now apply in_rev.
  - destruct (forallb p (rev l)) eqn:E'; [| reflexivity].
    rewrite forallb_forall in E'. rewrite <- E. symmetry.
    apply forallb_forall. intros x Hx. apply E'. now apply in_rev in Hx.
Qed.

Lemma trim_nil_iff (s : jsstring) :
  trim s = [] <-> forallb is_whitespace s = true.
Proof.
  unfold trim, trimEnd.
  destruct (trimStart_split s) as (ws & E & Hws).
  destruct (trimStart s) as [|c r] eqn:Ea.
  - simpl. split; [intros _ | reflexivity]. now apply trimStart_nil_iff.
  - pose proof (trimStart_head s c r Ea) as Hc.
    split.
    + intros H. apply (f_equal (@rev code_unit)) in H. rewrite rev_involutive in H.
      apply trimStart_nil_iff in H.
      rewrite forallb_rev in H. cbn [forallb] in H. rewrite Hc in H. discriminate.
    + intros H. rewrite E, forallb_app in H. simpl in H. rewrite Hc in H.
      rewrite andb_false_r in H. discriminate.
Qed.

Lemma trim_idempotent (s : jsstring) : trim (trim s) = trim s.
Proof.
  unfold trim, trimEnd.
  set (a := trimStart s).
  destruct (trimStart_split (rev a)) as (ws & E & Hws).
  set (b := trimStart (rev a)) in *.
  assert (Ha : a = rev b ++ rev ws).
  { rewrite <- (rev_involutive a), E, rev_app_distr. reflexivity. }
  assert (Hfix : trimStart (rev b) = rev b).
  { apply trimStart_fixed. intros c r Hr.
    apply (trimStart_head s c (r ++ rev ws)). fold a. rewrite Ha, Hr. reflexivity. }
  rewrite Hfix, rev_involutive.
  f_equal. apply trimStart_fixed. intros c r Hr.
  now apply (trimStart_head (rev a) c r).
Qed.

(** X10. Validation looks at the trimmed text only: a title and its
    trimmed form get the same verdict, and trimming twice is trimming
    once.  The message [Please type a task name.] is given exactly to the
    texts made of white space only (the empty text among them). *)
Theorem validateTitle_trimmed (s : jsstring) :
  trim (trim s) = trim s
  /\ validateTitle (trim s) = validateTitle s
  /\ (validateTitle s = Some (lit "Please type a task name.")
      <-> forallb is_whitespace s = true).
Proof.
  split; [apply trim_idempotent |]. split.
  - unfold validateTitle. now rewrite trim_idempotent.
  - rewrite <- trim_nil_iff. unfold validateTitle.
    destruct (trim s) as [|c r]; [simpl; tauto |].
    cbn [truthy negb]. destruct (120 <? length (c :: r));
      split; discriminate.
Qed.

(** ** Ids *)

Lemma to_radix36_length (f : nat) (n : N) (acc : jsstring) :
  length acc <= length (to_radix36 f n acc).
Proof.
  revert n acc. induction f as [|f IH]; intros n acc; [simpl; lia |].
  cbn [to_radix36]. destruct (n / 36 =? 0)%N; [simpl; lia |].
  etransitivity; [| apply IH]. simpl. lia.
Qed.

Lemma to_radix36_pos_nonempty (p : positive) :
  to_radix36 (Pos.size_nat p) (N.pos p) [] <> [].
Proof.
  assert (E : exists k, Pos.size_nat p = S k) by (destruct p; simpl; eauto).
  destruct E as [k ->]. cbn [to_radix36].
  destruct (N.pos p / 36 =? 0)%N; [discriminate |].
  intros H. apply (f_equal (@length code_unit)) in H.
  pose proof (to_radix36_length k (N.pos p / 36)
                [digit36 (N.pos p mod 36)]) as L.
  rewrite H in L. simpl in L. lia.
Qed.

Lemma toString36_nonempty (z : Z) : toString36 z <> [].
Proof.
  destruct z as [|p|p]; [discriminate | apply to_radix36_pos_nonempty | discriminate].
Qed.

(** X11. A generated id is the clock reading in base 36, an underscore and
    at most eight characters taken from the random number's text; it is
    never the empty string, and generating it reads the clock once and the
    random source once. *)
Theorem generateId_shape (env : Env) (w : World) :
  exists time rnd,
    next_state (generateId env w) = time ++ lit "_" ++ rnd
    /\ time = toString36 (Date_now env (clock_reads w))
    /\ time <> []
    /\ rnd = slice 2 10 (Math_random_toString36 env (random_reads w))
    /\ length rnd <= 8
    /\ next_state (generateId env w) <> []
    /\ In 95%N (next_state (generateId env w))
    /\ clock_reads (next_world (generateId env w)) = S (clock_reads w)
    /\ random_reads (next_world (generateId env w)) = S (random_reads w)
    /\ timeouts (next_world (generateId env w)) = timeouts w.
Proof.
  exists (toString36 (Date_now env (clock_reads w))),
         (slice 2 10 (Math_random_toString36 env (random_reads w))).
  split; [reflexivity |]. split; [reflexivity |].
  split; [apply toString36_nonempty |]. split; [reflexivity |].
  split; [unfold slice; rewrite length_firstn; lia |].
  split.
  - change (next_state (generateId env w))
      with (toString36 (Date_now env (clock_reads w))
              ++ lit "_" ++ slice 2 10 (Math_random_toString36 env (random_reads w))).
    intros H. apply app_eq_nil in H as [H _]. now apply toString36_nonempty in H.
  - split; [| repeat split].
    change (next_state (generateId env w))
      with (toString36 (Date_now env (clock_reads w))
              ++ lit "_" ++ slice 2 10 (Math_random_toString36 env (random_reads w))).
    apply in_or_app. right. left. reflexivity.
Qed.

Lemma generateId_nonempty (env : Env) (w : World) : fst (generateId env w) <> [].
Proof.
  change (fst (generateId env w))
    with (toString36 (Date_now env (clock_reads w))
            ++ lit "_" ++ slice 2 10 (Math_random_toString36 env (random_reads w))).
  intros H. apply app_eq_nil in H as [H _]. now apply toString36_nonempty in H.
Qed.

Lemma wellformed_trimmed (i s : jsstring) (c : bool) (a : number) :
  i <> [] -> validateTitle s = None -> wellformed (Todo.mk i (trim s) c a).
Proof.
  intros Hi Hv. unfold wellformed. cbn [Todo.id Todo.title].
  split; [exact Hi |]. split; [apply trim_idempotent |].
  unfold validateTitle in *. now rewrite trim_idempotent.
Qed.

(** X12. Every task of a collection built from the empty one by valid
    Create, Toggle, Delete and CommitEdit steps has a non-empty id and a
    title that is already trimmed and passes validation (non-empty, at
    most 120 code units). *)
Theorem built_tasks_wellformed (env : Env) (ts : list Todo.t) :
  built env ts ->
  Forall (fun t => wellformed t
                   /\ Todo.title t <> [] /\ length (Todo.title t) <= 120) ts.
Proof.
  intros Hb.
  assert (H : Forall wellformed ts).
  { induction Hb as [| st w _ IH Hv | st i _ IH | st i _ IH | st w _ IH Hv].
    - constructor.
    - rewrite (addTodo_accepted env st w Hv).
      pose proof (generateId_nonempty env w) as Hne.
      destruct (generateId env w) as [i w1]. destruct (now env w1) as [c w2].
      simpl in *. apply Forall_app. split; [exact IH |].
      constructor; [now apply wellformed_trimmed | constructor].
    - unfold toggleCompleted. simpl. apply Forall_map.
      eapply Forall_impl; [| exact IH]. intros t Ht.
      destruct (str_eqb (Todo.id t) i); [exact Ht | exact Ht].
    - rewrite todos_deleteTodo. now apply Forall_filter.
    - rewrite (commitEdit_accepted st w Hv). simpl. apply Forall_map.
      eapply Forall_impl; [| exact IH]. intros t Ht.
      destruct (is_target (editingId st) t); [| exact Ht].
      destruct t as [i s c a]. unfold retitle. cbn [Todo.id Todo.completed Todo.createdAt].
      apply wellformed_trimmed; [apply Ht | exact Hv]. }
  eapply Forall_impl; [| exact H]. intros t Ht. split; [exact Ht |].
  destruct Ht as (_ & Htrim & Hv). apply validateTitle_accepts in Hv.
  rewrite Htrim in Hv. exact Hv.
Qed.

(** ** Create, further *)

(** X13. An accepted Create raises the total and the active count by one
    and leaves the completed count; it empties the input field and the
    error message, leaves the edit state and the filter alone, reads the
    clock twice (once for the id, once for createdAt) and the random
    source once, and sets no timer. *)
Theorem addTodo_accepted_effect (env : Env) (st : AppState) (w : World) :
  trim (newTitle st) <> [] -> length (trim (newTitle st)) <= 120 ->
  let st' := next_state (addTodo env st w) in
  let w' := next_world (addTodo env st w) in
  Counts.total (counts st') = Counts.total (counts st) + 1
  /\ Counts.active (counts st') = Counts.active (counts st) + 1
  /\ Counts.completed (counts st') = Counts.completed (counts st)
  /\ newTitle st' = [] /\ error st' = []
  /\ editingId st' = editingId st /\ editingTitle st' = editingTitle st
  /\ filter st' = filter st
  /\ clock_reads w' = clock_reads w + 2
  /\ random_reads w' = random_reads w + 1
  /\ timeouts w' = timeouts w.
Proof.
  intros H1 H2.
  assert (Hv : validateTitle (newTitle st) = None)
    by (apply validateTitle_accepts; auto).
  cbv zeta. rewrite (addTodo_accepted env st w Hv).
  unfold generateId, now, random36, bind, ret, next_state, next_world, counts.
  cbn [fst snd setError setNewTitle setTodos todos newTitle editingId editingTitle
       filter error clock_reads random_reads timeouts getCounts
       Counts.total Counts.active Counts.completed].
  rewrite filter_app, !length_app. cbn [List.filter Todo.completed length app].
  pose proof (filter_length_le Todo.completed (todos st)).
  repeat split; lia.
Qed.

(** X14. Create followed by Delete of the id just generated gives back the
    collection as it was, provided no earlier task had that id. *)
Theorem addTodo_then_deleteTodo (env : Env) (st : AppState) (w : World) :
  trim (newTitle st) <> [] -> length (trim (newTitle st)) <= 120 ->
  ~ In (next_state (generateId env w)) (ids (todos st)) ->
  todos (deleteTodo (next_state (generateId env w)) (next_state (addTodo env st w)))
  = todos st.
Proof.
  intros H1 H2 Hfresh.
  assert (Hv : validateTitle (newTitle st) = None)
    by (apply validateTitle_accepts; auto).
  rewrite todos_deleteTodo, (addTodo_accepted env st w Hv).
  unfold next_state in *. destruct (generateId env w) as [i w1].
  destruct (now env w1) as [c w2]. cbn [fst] in *.
  cbn [setError setNewTitle setTodos todos].
  rewrite filter_app, (filter_absent_id i (todos st) Hfresh).
  cbn [List.filter Todo.id]. rewrite str_eqb_refl. cbn [negb]. apply app_nil_r.
Qed.

(** ** Editing *)

Lemma unique_by_id (t u : Todo.t) (ts : list Todo.t) :
  NoDup (ids ts) -> In t ts -> In u ts -> Todo.id t = Todo.id u -> t = u.
Proof.
  induction ts as [|x ts IH]; intros Hnd Ht Hu E; [contradiction |].
  cbn [ids map] in Hnd. apply NoDup_cons_iff in Hnd as [Hnot Hnd].
  destruct Ht as [-> | Ht], Hu as [-> | Hu]; auto.
  - elim Hnot. rewrite E. now apply in_map.
  - elim Hnot. rewrite <- E. now apply in_map.
Qed.

(** X15. Opening the edit form of a task and saving it unchanged leaves
    the collection as it was and closes the edit, when the ids are
    pairwise distinct and the task's title is one that Create or
    CommitEdit would have stored (trimmed, non-empty, at most 120 code
    units). *)
Theorem edit_unchanged_is_noop (todo : Todo.t) (st : AppState) (w : World) :
  In todo (todos st) -> NoDup (ids (todos st)) ->
  trim (Todo.title todo) = Todo.title todo ->
  Todo.title todo <> [] -> length (Todo.title todo) <= 120 ->
  commitEdit (startEdit todo st) w = (cancelEdit st, w).
Proof.
  intros Hin Hnd Htrim Hne Hlen.
  assert (Hv : validateTitle (editingTitle (startEdit todo st)) = None).
  { cbn [startEdit setError setEditingTitle setEditingId editingTitle].
    apply validateTitle_accepts. rewrite Htrim. auto. }
  rewrite (commitEdit_accepted _ w Hv).
  cbn [startEdit setError setEditingTitle setEditingId editingTitle editingId todos].
  rewrite Htrim.
  assert (Hm : map (fun t => if is_target (Some (Todo.id todo)) t
                             then retitle (Todo.title todo) t else t) (todos st)
               = todos st).
  { rewrite <- (map_id (todos st)) at 2. apply map_ext_in. intros t Ht.
    destruct (is_target (Some (Todo.id todo)) t) eqn:E; [| reflexivity].
    apply is_target_true in E. injection E as E.
    assert (t = todo) by (apply (unique_by_id t todo (todos st)); auto).
    subst t. destruct todo; reflexivity. }
  unfold cancelEdit, setError, setEditingTitle, setEditingId, setTodos.
  cbn [todos newTitle editingId editingTitle filter error].
  change (todos (startEdit todo st)) with (todos st).
  change (newTitle (startEdit todo st)) with (newTitle st).
  change (filter (startEdit todo st)) with (filter st).
  now rewrite Hm.
Qed.

(** ** The task panel *)

Lemma length_zero_iff_nil' {A} (l : list A) : (length l =? 0) = true <-> l = [].
Proof. rewrite Nat.eqb_eq. apply length_zero_iff_nil. Qed.

(** X16. The task panel shows [No tasks yet] exactly when the collection
    is empty, and [No tasks match this filter] exactly when the collection
    is not empty but the current view is: never under the filter All,
    under Active only when every task is completed, under Completed only
    when none is.  Otherwise it lists the tasks of the current view, in
    order, one row each. *)
Theorem listPanel_cases (st : AppState) :
  (listPanel st = NoTasksYet <-> todos st = [])
  /\ (listPanel st = NoTasksMatch <-> todos st <> [] /\ visibleTodos st = [])
  /\ (filter st = FilterAll -> listPanel st <> NoTasksMatch)
  /\ (listPanel st = NoTasksMatch -> filter st = FilterActive ->
      forall t, In t (todos st) -> Todo.completed t = true)
  /\ (listPanel st = NoTasksMatch -> filter st = FilterCompleted ->
      forall t, In t (todos st) -> Todo.completed t = false)
  /\ (forall rows, listPanel st = TodoList rows ->
        rows <> [] /\ map row_todo rows = visibleTodos st
        /\ forall r, In r rows ->
             (isEditing r = true <-> editingId st = Some (Todo.id (row_todo r)))).
Proof.
  assert (Hyet : listPanel st = NoTasksYet <-> todos st = []).
  { unfold listPanel. destruct (todos st) as [|t ts]; [simpl; tauto |].
    cbn [length Nat.eqb]. destruct (length (visibleTodos st) =? 0);
      split; discriminate. }
  assert (Hmatch : listPanel st = NoTasksMatch <-> todos st <> [] /\ visibleTodos st = []).
  { unfold listPanel. destruct (todos st) as [|t ts] eqn:Et.
    - simpl. split; [discriminate | intros [H _]; now elim H].
    - cbn [length Nat.eqb].
      destruct (length (visibleTodos st) =? 0) eqn:E.
      + apply length_zero_iff_nil' in E. split; [intros _; split; [discriminate | exact E] | reflexivity].
      + split; [discriminate |]. intros [_ H]. rewrite H in E. discriminate. }
  assert (Hview : forall t, In t (todos st) ->
                    In t (sort_by byCreatedAt (todos st)))
    by (intros t Ht; now apply sort_by_In).
  split; [exact Hyet |]. split; [exact Hmatch |]. split; [| split; [| split]].
  - intros Hf H. apply Hmatch in H as [Hne Hv].
    unfold visibleTodos in Hv. rewrite Hf in Hv.
    destruct (todos st) as [|t ts]; [now elim Hne |].
    specialize (Hview t (or_introl eq_refl)). rewrite Hv in Hview. contradiction.
  - intros H Hf t Ht. apply Hmatch in H as [_ Hv].
    unfold visibleTodos in Hv. rewrite Hf in Hv.
    destruct (Todo.completed t) eqn:Ec; [reflexivity |].
    assert (Hin : In t (List.filter (fun t => negb (Todo.completed t))
                          (sort_by byCreatedAt (todos st))))
      by (apply filter_In; split; [now apply Hview | now rewrite Ec]).
    rewrite Hv in Hin. contradiction.
  - intros H Hf t Ht. apply Hmatch in H as [_ Hv].
    unfold visibleTodos in Hv. rewrite Hf in Hv.
    destruct (Todo.completed t) eqn:Ec; [| reflexivity].
    assert (Hin : In t (List.filter (fun t => Todo.completed t)
                          (sort_by byCreatedAt (todos st))))
      by (apply filter_In; split; [now apply Hview | exact Ec]).
    rewrite Hv in Hin. contradiction.
  - intros rows H. unfold listPanel in H.
    destruct (length (todos st) =? 0); [discriminate |].
    destruct (length (visibleTodos st) =? 0) eqn:E; [discriminate |].
    injection H as <-. split; [| split].
    + destruct (visibleTodos st); [discriminate | discriminate].
    + rewrite map_map. cbn [row_todo]. apply map_id.
    + intros r Hr. apply in_map_iff in Hr as (t & <- & _).
      cbn [isEditing row_todo]. apply is_target_true.
Qed.

Lemma filter_target_absent (i : jsstring) (ts : list Todo.t) :
  ~ In i (ids ts) -> List.filter (is_target (Some i)) ts = [].
Proof.
  induction ts as [|u ts IH]; intros Hout; [reflexivity |].
  cbn [List.filter]. destruct (is_target (Some i) u) eqn:Eu.
  - apply is_target_true in Eu. injection Eu as Eu.
    elim Hout. left. now symmetry.
  - apply IH. intros H. apply Hout. now right.
Qed.

Lemma at_most_one_target (e : option jsstring) (ts : list Todo.t) :
  NoDup (ids ts) -> length (List.filter (is_target e) ts) <= 1.
Proof.
  induction ts as [|t ts IH]; intros Hnd; [simpl; lia |].
  cbn [ids map] in Hnd. apply NoDup_cons_iff in Hnd as [Hnot Hnd].
  cbn [List.filter]. destruct (is_target e t) eqn:E; [| now apply IH].
  apply is_target_true in E. subst e.
  rewrite (filter_target_absent (Todo.id t) ts Hnot). simpl. lia.
Qed.

Lemma NoDup_ids_Permutation (l l' : list Todo.t) :
  Permutation l l' -> NoDup (ids l) -> NoDup (ids l').
Proof.
  intros P. apply Permutation_NoDup. unfold ids. now apply Permutation_map.
Qed.

Lemma NoDup_ids_visibleTodos (st : AppState) :
  NoDup (ids (todos st)) -> NoDup (ids (visibleTodos st)).
Proof.
  intros Hnd.
  assert (Hs : NoDup (ids (sort_by byCreatedAt (todos st)))).
  { eapply NoDup_ids_Permutation; [| exact Hnd].
    symmetry. apply sort_by_Permutation. }
  unfold visibleTodos. destruct (filter st); [exact Hs | |];
    now apply NoDup_ids_filter.
Qed.

(** X17. When the ids are pairwise distinct the panel shows at most one
    edit form, and none when the edit target is not the id of a listed
    task; with a repeated id every task that carries the edit target gets
    a form of its own. *)
Theorem listPanel_edit_forms (st : AppState) (rows : list Row) :
  listPanel st = TodoList rows ->
  length (List.filter isEditing rows)
  = length (List.filter (is_target (editingId st)) (visibleTodos st))
  /\ (NoDup (ids (todos st)) -> length (List.filter isEditing rows) <= 1)
  /\ ((forall i, editingId st = Some i -> ~ In i (ids (visibleTodos st))) ->
      List.filter isEditing rows = []).
Proof.
  intros H. unfold listPanel in H.
  destruct (length (todos st) =? 0); [discriminate |].
  destruct (length (visibleTodos st) =? 0); [discriminate |].
  injection H as <-.
  assert (E : forall l,
             length (List.filter isEditing
                       (map (fun todo => {| row_todo := todo;
                                            isEditing := is_target (editingId st) todo |}) l))
             = length (List.filter (is_target (editingId st)) l)).
  { induction l as [|t l IH]; [reflexivity |].
    cbn [map List.filter isEditing].
    destruct (is_target (editingId st) t); cbn [length]; now rewrite IH. }
  split; [apply E |]. split.
  - intros Hnd. rewrite E. apply at_most_one_target.
    now apply NoDup_ids_visibleTodos.
  - intros Hout. apply length_zero_iff_nil. rewrite E.
    apply length_zero_iff_nil.
    induction (visibleTodos st) as [|t l IH]; [reflexivity |].
    cbn [List.filter]. destruct (is_target (editingId st) t) eqn:Et.
    + apply is_target_true in Et. elim (Hout _ Et). left. reflexivity.
    + apply IH. intros i Hi Hin. apply (Hout i Hi). now right.
Qed.

(** ** Order of the rows under the operations *)

Lemma insert_by_map (g : Todo.t -> Todo.t) (x : Todo.t) (l : list Todo.t) :
  (forall t, Todo.createdAt (g t) = Todo.createdAt t) ->
  insert_by byCreatedAt (g x) (map g l) = map g (insert_by byCreatedAt x l).
Proof.
  intros Hg. induction l as [|y r IH]; [reflexivity |].
  cbn [map insert_by]. unfold byCreatedAt at 1. rewrite !Hg.
  fold (byCreatedAt x y).
  destruct (is_positive (byCreatedAt x y)); cbn [map]; [now rewrite IH | reflexivity].
Qed.

Lemma sort_by_map (g : Todo.t -> Todo.t) (l : list Todo.t) :
  (forall t, Todo.createdAt (g t) = Todo.createdAt t) ->
  sort_by byCreatedAt (map g l) = map g (sort_by byCreatedAt l).
Proof.
  intros Hg. induction l as [|x r IH]; [reflexivity |].
  cbn [map sort_by]. rewrite IH. now apply insert_by_map.
Qed.

Lemma filter_map_same {A} (p : A -> bool) (g : A -> A) (l : list A) :
  (forall x, p (g x) = p x) ->
  List.filter p (map g l) = map g (List.filter p l).
Proof.
  intros H. induction l as [|x l IH]; [reflexivity |].
  cbn [map List.filter]. rewrite H. destruct (p x); cbn [map]; now rewrite IH.
Qed.

(** X18. Toggling and retitling never move a row: the view of all after
    Toggle is the view of all before it with the flags of the matching
    tasks flipped in place, and each of the three views after an accepted
    CommitEdit is the same view before it with the matching titles
    replaced in place. *)
Theorem toggle_and_retitle_keep_rows_in_place (st : AppState) :
  (forall i,
     view FilterAll (toggleCompleted i st)
     = map (fun t => if str_eqb (Todo.id t) i then flip t else t)
           (view FilterAll st))
  /\ (forall w f,
        trim (editingTitle st) <> [] -> length (trim (editingTitle st)) <= 120 ->
        view f (next_state (commitEdit st w))
        = map (fun t => if is_target (editingId st) t
                        then retitle (trim (editingTitle st)) t else t)
              (view f st)).
Proof.
  split.
  - intros i. rewrite !view_all. unfold toggleCompleted. cbn [setTodos todos].
    apply sort_by_map. intros t. destruct (str_eqb (Todo.id t) i); reflexivity.
  - intros w f H1 H2.
    assert (Hv : validateTitle (editingTitle st) = None)
      by (apply validateTitle_accepts; auto).
    rewrite (commitEdit_accepted st w Hv).
    set (g := fun t => if is_target (editingId st) t
                       then retitle (trim (editingTitle st)) t else t).
    assert (Hc : forall t, Todo.createdAt (g t) = Todo.createdAt t)
      by (intros t; unfold g; destruct (is_target (editingId st) t); reflexivity).
    assert (Hd : forall t, Todo.completed (g t) = Todo.completed t)
      by (intros t; unfold g; destruct (is_target (editingId st) t); reflexivity).
    unfold view, visibleTodos, next_state.
    cbn [fst setFilter setError setEditingTitle setEditingId setTodos todos filter].
    rewrite (sort_by_map g _ Hc).
    destruct f; [reflexivity | |].
    + apply filter_map_same. intros t. now rewrite Hd.
    + apply filter_map_same. exact Hd.
Qed.

Lemma filter_insert_by_ascending (p : Todo.t -> bool) (x : Todo.t) (l : list Todo.t) :
  ascending l ->
  List.filter p (insert_by byCreatedAt x l)
  = if p x then insert_by byCreatedAt x (List.filter p l) else List.filter p l.
Proof.
  unfold ascending. induction 1 as [|y r Hs IH Hy].
  - cbn [insert_by List.filter]. destruct (p x); reflexivity.
  - cbn [insert_by]. destruct (is_positive (byCreatedAt x y)) eqn:E.
    + cbn [List.filter]. rewrite IH.
      destruct (p x), (p y); try reflexivity.
      cbn [insert_by]. now rewrite E.
    + cbn [List.filter]. destruct (p x) eqn:Ex; [| reflexivity].
      apply not_positive_byCreatedAt in E.
      symmetry. apply insert_by_first.
      assert (Hall : Forall (fun t => (Todo.createdAt x <= Todo.createdAt t)%Q) (y :: r)).
      { constructor; [exact E |].
        eapply Forall_impl; [| exact Hy]. intros t Ht. simpl in Ht.
        eapply Qle_trans; eassumption. }
      change (if p y then y :: List.filter p r else List.filter p r)
        with (List.filter p (y :: r)).
      now apply Forall_filter.
Qed.

Lemma sort_by_filter (p : Todo.t -> bool) (l : list Todo.t) :
  sort_by byCreatedAt (List.filter p l) = List.filter p (sort_by byCreatedAt l).
Proof.
  induction l as [|x r IH]; [reflexivity |].
  cbn [List.filter sort_by].
  rewrite (filter_insert_by_ascending p x _ (sort_by_ascending r)).
  destruct (p x); [cbn [sort_by]; now rewrite IH | exact IH].
Qed.

Lemma filter_comm {A} (p q : A -> bool) (l : list A) :
  List.filter p (List.filter q l) = List.filter q (List.filter p l).
Proof.
  induction l as [|x l IH]; [reflexivity |].
  cbn [List.filter]. destruct (p x) eqn:Ep, (q x) eqn:Eq; cbn [List.filter];
    rewrite ?Ep, ?Eq, IH; reflexivity.
Qed.

Lemma view_setTodos_filter (p : Todo.t -> bool) (f : Filter) (st : AppState) :
  view f (setTodos (List.filter p) st) = List.filter p (view f st).
Proof.
  unfold view, visibleTodos.
  cbn [setFilter setTodos todos filter]. rewrite sort_by_filter.
  destruct f; [reflexivity | apply filter_comm | apply filter_comm].
Qed.

Lemma view_ignores_edit_state (f : Filter) (st : AppState) :
  view f (cancelEdit st) = view f st.
Proof. reflexivity. Qed.

(** X19. Removing tasks never reorders the ones that stay: each view after
    Delete(id) is the same view before it without the tasks of that id,
    and each view after ClearCompleted is the same view before it without
    the completed tasks. *)
Theorem removal_keeps_rows_in_order (f : Filter) (st : AppState) :
  (forall i,
     view f (deleteTodo i st)
     = List.filter (fun t => negb (str_eqb (Todo.id t) i)) (view f st))
  /\ view f (clearCompleted st)
     = List.filter (fun t => negb (Todo.completed t)) (view f st).
Proof.
  split.
  - intros i. unfold deleteTodo.
    destruct (is_editing (editingId st) i);
      rewrite ?view_ignores_edit_state; apply view_setTodos_filter.
  - unfold clearCompleted.
    destruct (truthy (editingId st)); [| apply view_setTodos_filter].
    destruct (negb _);
      rewrite ?view_ignores_edit_state; apply view_setTodos_filter.
Qed.

(** ** Rehydration, further *)

Lemma toTodo_clock (env : Env) (e : json) (w : World) :
  clock_reads (snd (toTodo env e w))
  = clock_reads w + (if lacks_createdAt e then 1 else 0).
Proof.
  unfold toTodo, lacks_createdAt, bind, ret.
  destruct (jstype_eqb (typeof (get_prop e (lit "createdAt"))) TNumber);
    cbn [negb snd now clock_reads]; lia.
Qed.

Lemma mapM_toTodo_clock (env : Env) (l : list json) :
  forall w,
    clock_reads (snd (mapM (toTodo env) l w))
    = clock_reads w + length (List.filter lacks_createdAt l)
    /\ length (fst (mapM (toTodo env) l w)) = length l.
Proof.
  induction l as [|e l IH]; intros w; [simpl; split; [lia | reflexivity] |].
  rewrite mapM_cons. pose proof (toTodo_clock env e w) as Hc.
  destruct (toTodo env e w) as [t w1]. cbn [snd] in Hc.
  destruct (IH w1) as [H1 H2].
  destruct (mapM (toTodo env) l w1) as [ts w2]. cbn [fst snd] in *.
  cbn [List.filter]. destruct (lacks_createdAt e); cbn [length]; split; lia.
Qed.

Lemma filter_none {A} (p : A -> bool) (l : list A) :
  Forall (fun x => p x = false) l -> List.filter p l = [].
Proof.
  induction 1 as [|x l Hx _ IH]; [reflexivity |].
  cbn [List.filter]. now rewrite Hx.
Qed.

(** X20. Loading a stored array yields one task per accepted element, so
    never more tasks than the array has elements, and reads the clock
    exactly once for each accepted element without a numeric createdAt:
    not at all when every accepted element carries one. *)
Theorem parseStoredTodos_clock_reads (env : Env) (text : jsstring)
        (elems : list json) (w : World) :
  JSON_parse text = Some (JArr elems) ->
  let r := parseStoredTodos env (Some text) w in
  length (next_state r) = length (List.filter conforming elems)
  /\ length (next_state r) <= length elems
  /\ clock_reads (next_world r)
     = clock_reads w
       + length (List.filter lacks_createdAt (List.filter conforming elems))
  /\ (Forall (fun e => lacks_createdAt e = false) (List.filter conforming elems) ->
      next_world r = w).
Proof.
  intros H. cbv zeta. rewrite (parseStoredTodos_array env text elems w H).
  destruct (mapM_toTodo_clock env (List.filter conforming elems) w) as [Hc Hl].
  destruct (mapM_toTodo_rehydrated env (List.filter conforming elems)
              (filter_Forall conforming elems) w) as (_ & _ & Hr & Ht).
  unfold next_state, next_world in *.
  split; [exact Hl |]. split; [rewrite Hl; apply filter_length_le |].
  split; [exact Hc |].
  intros Hall.
  pose proof (filter_none lacks_createdAt _ Hall) as E.
  rewrite E in Hc. cbn [length] in Hc.
  destruct (snd (mapM (toTodo env) (List.filter conforming elems) w)) as [c r t].
  destruct w as [c0 r0 t0]. cbn [clock_reads random_reads timeouts] in *.
  f_equal; [lia | exact Hr | exact Ht].
Qed.

(** ** The error notice *)

(** X21. A rejected submission, of the new-task form or of the edit form,
    is undone by its timer apart from the message: once the callback set
    by [clearErrorSoon] has run, the state is the one before the
    submission with an empty error message, whatever message was shown at
    that moment; the callback never touches the collection, the input
    field, the edit state or the filter. *)
Theorem rejected_submit_then_timeout (env : Env) (st : AppState) (w : World) :
  (trim (newTitle st) = [] \/ 120 < length (trim (newTitle st)) ->
   errorTimeoutFires (next_state (addTodo env st w)) = setError [] st)
  /\ (trim (editingTitle st) = [] \/ 120 < length (trim (editingTitle st)) ->
      errorTimeoutFires (next_state (commitEdit st w)) = setError [] st)
  /\ (forall st0, only_error_changed [] st0 (errorTimeoutFires st0)).
Proof.
  split; [| split].
  - intros H. destruct (validateTitle_rejects _ H) as (msg & Hv & _).
    now rewrite (addTodo_rejected env st w msg Hv).
  - intros H. destruct (validateTitle_rejects _ H) as (msg & Hv & _).
    now rewrite (commitEdit_rejected st w msg Hv).
  - intros st0. unfold only_error_changed. repeat split.
Qed.

(** ** ClearCompleted and the edit in progress *)

(** X22. In a store whose tasks all have a non-empty id, as every task
    made by Create has, with the edit target being the id of a listed
    task: ClearCompleted keeps the edit target and the edit buffer when a
    task with that id is left, and clears both when none is left. *)
Theorem clearCompleted_edit_of_listed_task (e : jsstring) (st : AppState) :
  Forall (fun t => Todo.id t <> []) (todos st) ->
  editingId st = Some e -> In e (ids (todos st)) ->
  (In e (ids (todos (clearCompleted st))) ->
   editingId (clearCompleted st) = Some e
   /\ editingTitle (clearCompleted st) = editingTitle st)
  /\ (~ In e (ids (todos (clearCompleted st))) ->
      editingId (clearCompleted st) = None
      /\ editingTitle (clearCompleted st) = []).
Proof.
  intros Hall He Hin. apply clearCompleted_edit_state; [exact He |].
  unfold ids in Hin. apply in_map_iff in Hin as (t & <- & Ht).
  rewrite Forall_forall in Hall. now apply Hall.
Qed.

(** ** Persistence over several sessions *)

Lemma safe_integral_integral (t : Todo.t) : safe_integral t -> integral t.
Proof. intros (z & Hz & _). now exists z. Qed.

Lemma safe_integral_same_time (t u : Todo.t) :
  Todo.createdAt u = Todo.createdAt t -> safe_integral t -> safe_integral u.
Proof. intros E (z & Hz & B). exists z. split; [congruence | exact B]. Qed.

(** X23. A collection whose createdAt values are all safe integers (of
    magnitude at most 2^53, as every time value of the clock is) reloads
    from its own persisted text exactly, the clock not being consulted.
    Toggle, Delete, CommitEdit and ClearCompleted keep the createdAt
    values safe integers, and so does Create when the clock returns time
    values: what one session persisted, a later session loads, changes and
    persists again without loss. *)
Theorem safe_integer_collections_reload (env : Env) (st : AppState) :
  Forall safe_integral (todos st) ->
  (forall env' w,
     parseStoredTodos env' (Some (JSON_stringify (todos_value (todos st)))) w
     = (todos st, w))
  /\ (clock_in_range env ->
      forall w, Forall safe_integral (todos (next_state (addTodo env st w))))
  /\ (forall w, Forall safe_integral (todos (next_state (commitEdit st w))))
  /\ (forall i, Forall safe_integral (todos (toggleCompleted i st)))
  /\ (forall i, Forall safe_integral (todos (deleteTodo i st)))
  /\ Forall safe_integral (todos (clearCompleted st)).
Proof.
  intros H. split; [| split; [| split; [| split; [| split]]]].
  - intros env' w. apply parseStoredTodos_stringify.
    eapply Forall_impl; [| exact H]. apply safe_integral_integral.
  - intros Hclock w. unfold addTodo.
    destruct (truthy (validateTitle (newTitle st))).
    + destruct (validateTitle (newTitle st)); exact H.
    + unfold next_state, generateId, now, random36, bind, ret.
      cbn [fst setError setNewTitle setTodos todos clock_reads].
      apply Forall_app. split; [exact H |].
      constructor; [| constructor].
      eexists. split; [reflexivity |].
      specialize (Hclock (S (clock_reads w))). lia.
  - intros w. unfold commitEdit.
    destruct (truthy (validateTitle (editingTitle st))).
    + destruct (validateTitle (editingTitle st)); exact H.
    + simpl. apply Forall_map. eapply Forall_impl; [| exact H]. intros t Ht.
      destruct (is_target (editingId st) t); [| exact Ht].
      now apply (safe_integral_same_time t).
  - intros i. unfold toggleCompleted. simpl. apply Forall_map.
    eapply Forall_impl; [| exact H]. intros t Ht.
    destruct (str_eqb (Todo.id t) i); [| exact Ht].
    now apply (safe_integral_same_time t).
  - intros i. rewrite todos_deleteTodo. now apply Forall_filter.
  - rewrite todos_clearCompleted. now apply Forall_filter.
Qed.

(** ** The further properties at sample inputs *)

Lemma NoDup_two_tasks : NoDup (ids (todos two_tasks)).
Proof. repeat constructor; simpl; intuition discriminate. Defined.

Lemma visibleTodos_of_ascending_witness :
  view FilterAll two_tasks = todos two_tasks
  /\ view FilterActive two_tasks
     = List.filter (fun t => negb (Todo.completed t)) (todos two_tasks)
  /\ view FilterCompleted two_tasks
     = List.filter (fun t => Todo.completed t) (todos two_tasks).
Proof.
  apply (visibleTodos_of_ascending two_tasks).
  repeat constructor; unfold Qle; simpl; lia.
Defined.

Lemma toggleCompleted_effect_witness :
  Counts.completed (counts (toggleCompleted (lit "a") two_tasks))
  = Counts.completed (counts two_tasks) + 1.
Proof.
  destruct (toggleCompleted_effect (lit "a") two_tasks) as (_ & _ & _ & _ & _ & _ & _ & H).
  apply (H NoDup_two_tasks (task (lit "a") (lit "Buy milk") false 10)).
  - left. reflexivity.
  - reflexivity.
Defined.

Lemma deleteTodo_removes_id_witness :
  In (task (lit "b") (lit "Write report") true 20)
     (todos (deleteTodo (lit "a") two_tasks)).
Proof.
  destruct (deleteTodo_removes_id (lit "a") two_tasks) as (_ & H & _).
  apply H; [discriminate | right; left; reflexivity].
Defined.

Lemma deleteTodo_edit_state_witness :
  editingId (deleteTodo (lit "a") editing_first) = None
  /\ editingId (deleteTodo (lit "b") editing_first) = Some (lit "a")
  /\ editingTitle (deleteTodo (lit "b") editing_first) = lit " Buy oat milk ".
Proof.
  split.
  - apply (proj1 (deleteTodo_edit_state (lit "a") editing_first)). reflexivity.
  - destruct (proj1 (proj2 (deleteTodo_edit_state (lit "b") editing_first)))
      as (H1 & H2 & _); [discriminate |].
    split; [exact H1 | exact H2].
Defined.

Lemma built_tasks_wellformed_witness :
  Forall (fun t => wellformed t /\ Todo.title t <> [] /\ length (Todo.title t) <= 120)
         (todos (fst one_task_session)).
Proof.
  apply (built_tasks_wellformed sample_env).
  unfold one_task_session, sample_env.
  apply built_create; [apply built_empty | reflexivity].
Defined.

Lemma addTodo_accepted_effect_witness :
  Counts.total (counts (next_state (addTodo sample_env typing_report fresh_world))) = 3
  /\ Counts.active (counts (next_state (addTodo sample_env typing_report fresh_world))) = 2
  /\ clock_reads (next_world (addTodo sample_env typing_report fresh_world)) = 2.
Proof.
  destruct (addTodo_accepted_effect sample_env typing_report fresh_world)
    as (Ht & Ha & _ & _ & _ & _ & _ & _ & Hc & _).
  - discriminate.
  - vm_compute. lia.
  - split; [exact Ht |]. split; [exact Ha | exact Hc].
Defined.

Lemma addTodo_then_deleteTodo_witness :
  todos (deleteTodo (next_state (generateId sample_env fresh_world))
                    (next_state (addTodo sample_env typing_report fresh_world)))
  = todos typing_report.
Proof.
  apply addTodo_then_deleteTodo.
  - discriminate.
  - vm_compute. lia.
  - vm_compute. intuition discriminate.
Defined.

Lemma edit_unchanged_is_noop_witness :
  commitEdit (startEdit (task (lit "a") (lit "Buy milk") false 10) two_tasks) fresh_world
  = (cancelEdit two_tasks, fresh_world).
Proof.
  apply edit_unchanged_is_noop.
  - left. reflexivity.
  - exact NoDup_two_tasks.
  - reflexivity.
  - discriminate.
  - vm_compute. lia.
Defined.

Lemma listPanel_cases_witness :
  listPanel all_done_active = NoTasksMatch
  /\ (forall t, In t (todos all_done_active) -> Todo.completed t = true)
  /\ listPanel (setFilter FilterAll all_done_active) <> NoTasksMatch.
Proof.
  destruct (listPanel_cases all_done_active) as (_ & Hm & _ & Ha & _).
  assert (H : listPanel all_done_active = NoTasksMatch)
    by (apply Hm; split; [discriminate | reflexivity]).
  split; [exact H |]. split; [apply Ha; [exact H | reflexivity] |].
  apply (proj1 (proj2 (proj2 (listPanel_cases (setFilter FilterAll all_done_active))))).
  reflexivity.
Defined.

Lemma listPanel_edit_forms_witness :
  exists rows,
    listPanel editing_first = TodoList rows
    /\ length (List.filter isEditing rows) <= 1.
Proof.
  exists (map (fun todo => {| row_todo := todo;
                              isEditing := is_target (editingId editing_first) todo |})
              (visibleTodos editing_first)).
  split; [reflexivity |].
  apply (proj1 (proj2 (listPanel_edit_forms editing_first _ eq_refl))).
  exact NoDup_two_tasks.
Defined.

Lemma toggle_and_retitle_keep_rows_in_place_witness :
  view FilterAll (next_state (commitEdit editing_first fresh_world))
  = map (fun t => if is_target (Some (lit "a")) t
                  then retitle (lit "Buy oat milk") t else t)
        (view FilterAll editing_first).
Proof.
  apply (proj2 (toggle_and_retitle_keep_rows_in_place editing_first)
           fresh_world FilterAll).
  - discriminate.
  - vm_compute. lia.
Defined.

Lemma parseStoredTodos_clock_reads_witness :
  let r := parseStoredTodos (steady_env 99 [])
             (Some (JSON_stringify (JArr mixed_elements))) fresh_world in
  length (next_state r) = 2 /\ clock_reads (next_world r) = 1.
Proof.
  cbv zeta.
  destruct (parseStoredTodos_clock_reads (steady_env 99 [])
              (JSON_stringify (JArr mixed_elements)) mixed_elements fresh_world)
    as (Hl & _ & Hc & _).
  - vm_compute. reflexivity.
  - split; [exact Hl | exact Hc].
Defined.

Lemma rejected_submit_then_timeout_witness :
  errorTimeoutFires (next_state (addTodo sample_env (setNewTitle (lit "  ") two_tasks)
                                         fresh_world))
  = setError [] (setNewTitle (lit "  ") two_tasks)
  /\ errorTimeoutFires
       (next_state (commitEdit (setEditingTitle [] editing_first) fresh_world))
     = setError [] (setEditingTitle [] editing_first).
Proof.
  split.
  - apply (proj1 (rejected_submit_then_timeout sample_env
                    (setNewTitle (lit "  ") two_tasks) fresh_world)).
    left. reflexivity.
  - apply (proj1 (proj2 (rejected_submit_then_timeout sample_env
                           (setEditingTitle [] editing_first) fresh_world))).
    left. reflexivity.
Defined.

Lemma clearCompleted_edit_of_listed_task_witness :
  editingId (clearCompleted editing_second) = None
  /\ editingId (clearCompleted editing_first) = Some (lit "a").
Proof.
  split.
  - apply (proj2 (clearCompleted_edit_of_listed_task (lit "b") editing_second
                    ltac:(repeat constructor; discriminate) eq_refl
                    ltac:(right; left; reflexivity))).
    vm_compute. intuition discriminate.
  - apply (proj1 (clearCompleted_edit_of_listed_task (lit "a") editing_first
                    ltac:(repeat constructor; discriminate) eq_refl
                    ltac:(left; reflexivity))).
    vm_compute. left. reflexivity.
Defined.

Lemma safe_integer_collections_reload_witness :
  parseStoredTodos sample_env
    (Some (JSON_stringify (todos_value (todos two_tasks)))) fresh_world
  = (todos two_tasks, fresh_world)
  /\ Forall safe_integral
       (todos (next_state (addTodo sample_env typing_report fresh_world)))
  /\ Forall safe_integral (todos (clearCompleted two_tasks)).
Proof.
  assert (Hsafe : Forall safe_integral (todos two_tasks)).
  { repeat constructor; eexists; (split; [reflexivity | simpl; lia]). }
  destruct (safe_integer_collections_reload sample_env two_tasks Hsafe)
    as (Hload & _ & _ & _ & _ & Hclear).
  destruct (safe_integer_collections_reload sample_env typing_report Hsafe)
    as (_ & Hadd & _).
  split; [apply Hload |]. split; [| exact Hclear].
  apply Hadd. intros n. simpl. lia.
Defined.
